(** * The team catcher grid world of gym_ma_toy

    A shallow embedding of [gym_ma_toy/envs/coop/game.py] and the
    properties of its [World] class: movement resolution, the capture
    scan, placement at [reset] and the tick function [update].

    Python integers are [Z], the numpy grid is a list of rows, the agent
    dictionary is a [gmap] on the agents' string names, and the methods of
    [World] run in a state monad that keeps the mutated world when an
    exception is raised. *)

From stdpp Require Import base numbers list strings gmap pretty.

Local Open Scope Z_scope.

(** ** Enumerations *)

Module Actions.
Definition NOOP : Z := 0.
Definition UP : Z := 1.
Definition DOWN : Z := 2.
Definition LEFT : Z := 3.
Definition RIGHT : Z := 4.
End Actions.

Module MapElement.
Definition empty : Z := 0.
Definition agent : Z := 1.
Definition target : Z := 2.
Definition isEmpty (v : Z) : bool := bool_decide (v = empty).
Definition isAgent (v : Z) : bool := bool_decide (v = agent).
Definition isTarget (v : Z) : bool := bool_decide (v = target).
End MapElement.

(** ** Exceptions and fallible results *)

Inductive exn := KeyError | IndexError | ValueError.

Inductive Res (A : Type) : Type :=
| Ok (a : A)
| Raise (e : exn).
Arguments Ok {A} a.
Arguments Raise {A} e.

Global Instance Res_ret : MRet Res := λ A a, Ok a.
Global Instance Res_bind : MBind Res := λ A B f r,
  match r with Ok a => f a | Raise e => Raise e end.

(** ** Sequences and arrays *)

(** [range(a, b)] *)
Definition range (a b : Z) : list Z := seqZ a (b - a).

(** Python and numpy indexing: an index in [-n, n) is accepted and a
    negative one counts from the end; anything else is an [IndexError]. *)
Definition norm_index (n : nat) (i : Z) : Res nat :=
  if bool_decide (0 ≤ i < Z.of_nat n) then Ok (Z.to_nat i)
  else if bool_decide (- Z.of_nat n ≤ i < 0) then Ok (Z.to_nat (i + Z.of_nat n))
  else Raise IndexError.

Definition getitem {A} (l : list A) (i : Z) : Res A :=
  k ← norm_index (length l) i;
  match l !! k with Some x => Ok x | None => Raise IndexError end.

Abbreviation ndarray := (list (list Z)).

(** [np.zeros((n, n))] *)
Definition np_zeros (n : Z) : Res ndarray :=
  if bool_decide (n < 0) then Raise ValueError
  else Ok (replicate (Z.to_nat n) (replicate (Z.to_nat n) 0)).

(** [a[i, j]] *)
Definition nd_getitem (a : ndarray) (ij : Z * Z) : Res Z :=
  row ← getitem a ij.1; getitem row ij.2.

(** [a[i, j] = v] *)
Definition nd_setitem (a : ndarray) (ij : Z * Z) (v : Z) : Res ndarray :=
  ki ← norm_index (length a) ij.1;
  match a !! ki with
  | None => Raise IndexError
  | Some row =>
      kj ← norm_index (length row) ij.2;
      Ok (<[ki := <[kj := v]> row]> a)
  end.

(** ** Elements of the game *)

(** [BaseElem.id] is the field [id_elem], named after the constructor's
    argument. *)
Record Agent := mkAgent { id_elem : Z; position : Z * Z }.

Record Target := mkTarget { target_position : Z * Z }.

Global Instance Agent_eq_dec : EqDecision Agent.
Proof. solve_decision. Defined.
Global Instance Target_eq_dec : EqDecision Target.
Proof. solve_decision. Defined.

(** ** The world *)

(** [agent_position] is [None] until [_update_position_state] has run;
    the ["map"] entry of [self.state] is the array [map] itself. *)
Record World := mkWorld {
  seed : Z;
  size : Z;
  nb_agents : Z;
  nb_targets : Z;
  targets_alive : Z;
  map : ndarray;
  agents : gmap string Agent;
  targets : list Target;
  agent_position : option (gmap string (Z * Z))
}.

Definition with_targets_alive (n : Z) (w : World) : World :=
  mkWorld (seed w) (size w) (nb_agents w) (nb_targets w) n (map w)
          (agents w) (targets w) (agent_position w).
Definition with_map (m : ndarray) (w : World) : World :=
  mkWorld (seed w) (size w) (nb_agents w) (nb_targets w) (targets_alive w) m
          (agents w) (targets w) (agent_position w).
Definition with_agents (a : gmap string Agent) (w : World) : World :=
  mkWorld (seed w) (size w) (nb_agents w) (nb_targets w) (targets_alive w)
          (map w) a (targets w) (agent_position w).
Definition with_targets (t : list Target) (w : World) : World :=
  mkWorld (seed w) (size w) (nb_agents w) (nb_targets w) (targets_alive w)
          (map w) (agents w) t (agent_position w).
Definition with_agent_position (p : gmap string (Z * Z)) (w : World) : World :=
  mkWorld (seed w) (size w) (nb_agents w) (nb_targets w) (targets_alive w)
          (map w) (agents w) (targets w) (Some p).
Definition with_seed (s : Z) (w : World) : World :=
  mkWorld s (size w) (nb_agents w) (nb_targets w) (targets_alive w)
          (map w) (agents w) (targets w) (agent_position w).

(** ** The monad of the methods

    A method takes the world and returns its result, or the exception it
    raised, together with the world as mutated up to that point. *)

Definition M (A : Type) : Type := World → Res A * World.

Global Instance M_ret : MRet M := λ A a w, (Ok a, w).
Global Instance M_bind : MBind M := λ A B f c w,
  match c w with
  | (Ok a, w') => f a w'
  | (Raise e, w') => (Raise e, w')
  end.

Definition gets {A} (f : World → A) : M A := λ w, (Ok (f w), w).
Definition modify (f : World → World) : M unit := λ w, (Ok tt, f w).
Definition lift {A} (r : Res A) : M A := λ w, (r, w).

(** [for x in l: body(x)] *)
Fixpoint for_ {A} (l : list A) (body : A → M unit) : M unit :=
  match l with
  | [] => mret tt
  | x :: l' => body x;; for_ l' body
  end.

(** [self.map[i, j]] and [self.map[i, j] = v] *)
Definition get_map (ij : Z * Z) : M Z :=
  m ← gets map; lift (nd_getitem m ij).
Definition set_map (ij : Z * Z) (v : Z) : M unit :=
  m ← gets map; m' ← lift (nd_setitem m ij v); modify (with_map m').

(** [self.agents[agent_id]]: the lookup raises [KeyError] on an absent name *)
Definition get_agent (agent_id : string) : M Agent :=
  a ← gets agents;
  lift (match a !! agent_id with Some ag => Ok ag | None => Raise KeyError end).

(** [agent.position = p], for the agent object stored under [agent_id] *)
Definition set_position (agent_id : string) (p : Z * Z) : M unit :=
  modify (λ w, with_agents (alter (λ ag, mkAgent (id_elem ag) p) agent_id (agents w)) w).

(** ** [World.__init__] *)

Definition __init__ (size nb_agents nb_targets seed : Z) : Res World :=
  m ← np_zeros size;
  Ok (mkWorld seed size nb_agents nb_targets nb_targets m ∅ [] None).

(** ** [World._update_position_state] *)

Definition _update_position_state : M unit :=
  modify (λ w, with_agent_position (position <$> agents w) w).

(** ** [World._update_action] *)

(** One [if action == ...:] block: [guard] is the boundary test and
    [dest] the destination, both computed from the agent's position. *)
Definition try_move (agent_id : string)
    (guard : Z * Z → bool) (dest : Z * Z → Z * Z) : M unit :=
  ag ← get_agent agent_id;
  let pos := position ag in
  free ← (if guard pos
          then v ← get_map (dest pos); mret (bool_decide (v = MapElement.empty))
          else mret false);
  if (free : bool) then
    set_map (dest pos) MapElement.agent;;
    set_map pos MapElement.empty;;
    set_position agent_id (dest pos)
  else mret tt.

Definition _update_action (action : Z) (agent_id : string) : M unit :=
  _ ← get_agent agent_id;
  sz ← gets size;
  (if bool_decide (action = Actions.UP) then
     try_move agent_id (λ p, bool_decide (p.1 - 1 > 0)) (λ p, (p.1 - 1, p.2))
   else mret tt);;
  (if bool_decide (action = Actions.DOWN) then
     try_move agent_id (λ p, bool_decide (p.1 + 1 < sz)) (λ p, (p.1 + 1, p.2))
   else mret tt);;
  (if bool_decide (action = Actions.LEFT) then
     try_move agent_id (λ p, bool_decide (p.2 - 1 > 0)) (λ p, (p.1, p.2 - 1))
   else mret tt);;
  (if bool_decide (action = Actions.RIGHT) then
     try_move agent_id (λ p, bool_decide (p.2 + 1 < sz)) (λ p, (p.1, p.2 + 1))
   else mret tt).

(** ** [World.agent_capture] *)

Definition agent_capture (pixel : Z * Z) (size : Z) (world_map : ndarray) : Res bool :=
  let potential_neighborhood :=
    [ (pixel.1 + 1, pixel.2); (pixel.1 - 1, pixel.2);
      (pixel.1, pixel.2 + 1); (pixel.1, pixel.2 - 1) ] in
  n_agent_neighbour ←
    foldl (λ (acc : Res Z) (neighbour : Z * Z),
             n ← acc;
             if bool_decide (0 ≤ neighbour.1 < size) && bool_decide (0 ≤ neighbour.2 < size)
             then v ← nd_getitem world_map neighbour;
                  if bool_decide (v = 1) then Ok (n + 1) else Ok n
             else Ok n)
          (Ok 0) potential_neighborhood;
  Ok (bool_decide (n_agent_neighbour >= 2)).

(** ** [World._update_map] *)

(** The body of the two loops, at the cell [(i, j)]. *)
Definition scan_cell (sz : Z) (ij : Z * Z) : M unit :=
  v ← get_map ij;
  if bool_decide (v = 2) then
    m ← gets map;
    captured ← lift (agent_capture ij sz m);
    if (captured : bool) then
      set_map ij 0;;
      modify (λ w, with_targets_alive (targets_alive w - 1) w)
    else mret tt
  else mret tt.

Definition _update_map : M unit :=
  sz ← gets size;
  for_ (range 0 sz) (λ i, for_ (range 0 sz) (λ j, scan_cell sz (i, j))).

(** ** [World.update] *)

(** The joint action is a dictionary; its items come in insertion order. *)
Definition update (joint_action : list (string * Z)) : M unit :=
  for_ joint_action (λ item, _update_action item.2 item.1);;
  _update_map;;
  _update_position_state.

(** ** [World.reset]

    [shuffle] stands for [np.random.shuffle] at the current state of
    numpy's process-wide generator: it returns its argument in some order.
    [World] never seeds that generator and never reads [self.seed]. *)

(** [enumerate(l)] *)
Definition enumerate {A} (l : list A) : list (Z * A) :=
  zip (seqZ 0 (Z.of_nat (length l))) l.

(** A dictionary built from its items in order: a later item overwrites an
    earlier one of the same key. *)
Definition dict (items : list (string * Agent)) : gmap string Agent :=
  foldl (λ d kv, <[kv.1 := kv.2]> d) ∅ items.

(** [f"agent_{i+1}"] *)
Definition agent_name (i : Z) : string := "agent_" +:+ pretty (i + 1).

(** [[(i, j) for j in range(1, size - 1) for i in range(1, size - 1)]] *)
Definition all_positions (sz : Z) : list (Z * Z) :=
  j ← range 1 (sz - 1); i ← range 1 (sz - 1); [(i, j)].

(** [all_positions[random_idx[i]]] *)
Definition pick (random_idx : list Z) (positions : list (Z * Z)) (i : Z) : Res (Z * Z) :=
  k ← getitem random_idx i; getitem positions k.

(** Lines 101 to 132: everything [reset] does before the capture scan. *)
Definition reset_placement (shuffle : list Z → list Z) : M unit :=
  nt ← gets nb_targets;
  modify (with_targets_alive nt);;
  sz ← gets size;
  zeros ← lift (np_zeros sz);
  modify (with_map zeros);;
  let random_idx := shuffle (range 0 ((sz - 2) * (sz - 2))) in
  na ← gets nb_agents;
  agents_pos ← lift (mapM (pick random_idx (all_positions sz)) (range 0 na));
  targets_pos ← lift (mapM (pick random_idx (all_positions sz)) (range na (na + nt)));
  items ← lift (mapM (λ ip : Z * (Z * Z),
                        p ← getitem agents_pos ip.1;
                        Ok (agent_name ip.1, mkAgent (ip.1 + 1) p))
                     (enumerate agents_pos));
  modify (with_agents (dict items));;
  modify (with_targets (mkTarget <$> targets_pos));;
  for_ agents_pos (λ pos, set_map pos MapElement.agent);;
  for_ targets_pos (λ pos, set_map pos MapElement.target).

Definition reset (shuffle : list Z → list Z) : M unit :=
  reset_placement shuffle;;
  _update_map;;
  _update_position_state.


(** ** Vocabulary of the properties *)

Global Instance exn_eq_dec : EqDecision exn.
Proof. solve_decision. Defined.
Global Instance Res_eq_dec `{EqDecision A} : EqDecision (Res A).
Proof. solve_decision. Defined.

(** The cell [c] lies on the [sz] by [sz] grid. *)
Definition inb (sz : Z) (c : Z * Z) : Prop := 0 ≤ c.1 < sz ∧ 0 ≤ c.2 < sz.

Global Instance inb_dec sz c : Decision (inb sz c).
Proof. unfold inb. apply _. Defined.

(** The cell [c] lies in the interior region, off the outer ring. *)
Definition interior (sz : Z) (c : Z * Z) : Prop :=
  1 ≤ c.1 ≤ sz - 2 ∧ 1 ≤ c.2 ≤ sz - 2.

(** The array has the shape [(sz, sz)], as [np.zeros((sz, sz))] has. *)
Definition square (sz : Z) (a : ndarray) : Prop :=
  length a = Z.to_nat sz ∧ Forall (λ row, length row = Z.to_nat sz) a.

(** The position drawn at the index [i] of a shuffled index array. *)
Definition drawn (random_idx : list Z) (positions : list (Z * Z)) (i : Z) : Z * Z :=
  positions !!! Z.to_nat (random_idx !!! Z.to_nat i).

(** The four orthogonal neighbours, in the order of [agent_capture]. *)
Definition neighbourhood (p : Z * Z) : list (Z * Z) :=
  [ (p.1 + 1, p.2); (p.1 - 1, p.2); (p.1, p.2 + 1); (p.1, p.2 - 1) ].

(** How many orthogonal neighbours of [p] are on the grid and hold an agent. *)
Definition n_agent_neighbour (sz : Z) (a : ndarray) (p : Z * Z) : Z :=
  Z.of_nat (length (filter (λ nb, inb sz nb ∧ nd_getitem a nb = Ok MapElement.agent)
                           (neighbourhood p))).

(** A target at [p] that the capture scan removes. *)
Definition capturable (sz : Z) (a : ndarray) (p : Z * Z) : Prop :=
  nd_getitem a p = Ok MapElement.target ∧ 2 ≤ n_agent_neighbour sz a p.

Global Instance capturable_dec sz a p : Decision (capturable sz a p).
Proof. unfold capturable. apply _. Defined.

(** The cell a directional action aims at, and the test [_update_action]
    makes on it before it looks at the grid. *)
Definition destination (action : Z) (p : Z * Z) : Z * Z :=
  if bool_decide (action = Actions.UP) then (p.1 - 1, p.2)
  else if bool_decide (action = Actions.DOWN) then (p.1 + 1, p.2)
  else if bool_decide (action = Actions.LEFT) then (p.1, p.2 - 1)
  else if bool_decide (action = Actions.RIGHT) then (p.1, p.2 + 1)
  else p.

Definition boundary_check (action sz : Z) (p : Z * Z) : bool :=
  if bool_decide (action = Actions.UP) then bool_decide (p.1 - 1 > 0)
  else if bool_decide (action = Actions.DOWN) then bool_decide (p.1 + 1 < sz)
  else if bool_decide (action = Actions.LEFT) then bool_decide (p.2 - 1 > 0)
  else if bool_decide (action = Actions.RIGHT) then bool_decide (p.2 + 1 < sz)
  else false.

(** The move of [action] from [p] succeeds in the world [w]. *)
Definition can_move (w : World) (action : Z) (p : Z * Z) : Prop :=
  boundary_check action (size w) p = true
  ∧ nd_getitem (map w) (destination action p) = Ok MapElement.empty.

Global Instance can_move_dec w action p : Decision (can_move w action p).
Proof. unfold can_move. apply _. Defined.

(** All the cells of the grid, in the order the scan visits them. *)
Definition grid_cells (sz : Z) : list (Z * Z) :=
  i ← range 0 sz; j ← range 0 sz; [(i, j)].

(** The number of cells of the array that hold [v]. *)
Definition count_elem (v : Z) (a : ndarray) : nat :=
  sum_list_with (sum_list_with (λ x, if bool_decide (x = v) then 1%nat else 0%nat)) a.

(** What [reset] establishes and [update] keeps: the grid has the shape
    [(size, size)] and every agent stands on it. *)
Definition World_ok (w : World) : Prop :=
  square (size w) (map w)
  ∧ (∀ k ag, agents w !! k = Some ag → inb (size w) (position ag)).

(** The per-agent moves of a tick, in the order of the joint action. *)
Definition moves (joint_action : list (string * Z)) : M unit :=
  for_ joint_action (λ item, _update_action item.2 item.1).

(** A configuration that placement can satisfy. *)
Definition valid_configuration (w : World) : Prop :=
  2 ≤ size w ∧ 0 ≤ nb_agents w ∧ 0 ≤ nb_targets w
  ∧ nb_agents w + nb_targets w ≤ (size w - 2) * (size w - 2).

(** [shuffle] returns the index array of [reset] in some order. *)
Definition shuffles (shuffle : list Z → list Z) (w : World) : Prop :=
  shuffle (range 0 ((size w - 2) * (size w - 2)))
  ≡ₚ range 0 ((size w - 2) * (size w - 2)).

(** The cells [reset] draws for the agents and for the targets. *)
Definition placed_agents (shuffle : list Z → list Z) (w : World) : list (Z * Z) :=
  drawn (shuffle (range 0 ((size w - 2) * (size w - 2)))) (all_positions (size w))
    <$> range 0 (nb_agents w).

Definition placed_targets (shuffle : list Z → list Z) (w : World) : list (Z * Z) :=
  drawn (shuffle (range 0 ((size w - 2) * (size w - 2)))) (all_positions (size w))
    <$> range (nb_agents w) (nb_agents w + nb_targets w).

(** The dictionary [reset] builds from the agents' cells. *)
Definition placed_dict (agents_pos : list (Z * Z)) : gmap string Agent :=
  dict ((λ ip : Z * (Z * Z), (agent_name ip.1, mkAgent (ip.1 + 1) ip.2))
          <$> enumerate agents_pos).

(** The worlds of an episode: the one a [reset] that returned normally
    leaves, from any earlier world and any outcome of the shuffle, and the
    ones later [update] calls leave, whether they return or raise. *)
Inductive reachable : World → Prop :=
| reachable_reset w0 shuffle w :
    reset shuffle w0 = (Ok tt, w) → reachable w
| reachable_update w joint_action r w' :
    reachable w → update joint_action w = (r, w') → reachable w'.

(** What the episode keeps: the world is well formed, [targets_alive] is at
    most [nb_targets] and, the configured number of targets being a
    number, at least the number of TARGET cells of the grid. *)
Definition alive_ok (w : World) : Prop :=
  World_ok w
  ∧ targets_alive w ≤ nb_targets w
  ∧ (0 ≤ nb_targets w →
     Z.of_nat (count_elem MapElement.target (map w)) ≤ targets_alive w).

(** A method that neither reads nor writes [self.seed]: run on a world
    with another seed, it does the same and leaves that other seed. *)
Definition seed_blind {A} (c : M A) : Prop :=
  ∀ w s, c (with_seed s w) = ((c w).1, with_seed s (c w).2).

(** ** [World.nb_targets_alive] *)

Definition nb_targets_alive (w : World) : Z := targets_alive w.

(** A method that leaves the observation [f] of the world as it found it,
    whether it returns or raises. *)
Definition keeps {A B} (f : World → B) (c : M A) : Prop :=
  ∀ w, f (c w).2 = f w.

(** The grid and the agents agree: every agent stands on a cell marked
    AGENT, off row 0 and column 0, no two agents on one cell; the cells
    hold 0, 1 or 2 and row 0 and column 0 hold 0; the AGENT cells number
    [nb_agents] and the TARGET cells [targets_alive]. *)
Definition consistent (w : World) : Prop :=
  World_ok w
  ∧ (∀ k ag, agents w !! k = Some ag →
       nd_getitem (map w) (position ag) = Ok MapElement.agent
       ∧ 1 ≤ (position ag).1 ∧ 1 ≤ (position ag).2)
  ∧ (∀ k1 k2 ag1 ag2, agents w !! k1 = Some ag1 → agents w !! k2 = Some ag2 →
       position ag1 = position ag2 → k1 = k2)
  ∧ (∀ c v, inb (size w) c → nd_getitem (map w) c = Ok v →
       (v = MapElement.empty ∨ v = MapElement.agent ∨ v = MapElement.target)
       ∧ (c.1 = 0 ∨ c.2 = 0 → v = MapElement.empty))
  ∧ Z.of_nat (count_elem MapElement.agent (map w)) = nb_agents w
  ∧ Z.of_nat (count_elem MapElement.target (map w)) = targets_alive w.

(** The worlds of an episode of a configuration that placement can
    satisfy: the one [reset] leaves when the shuffle permutes the index
    array, and the ones later [update] calls leave, whether they return or
    raise. *)
Inductive played : World → Prop :=
| played_reset w0 shuffle w :
    valid_configuration w0 → shuffles shuffle w0 →
    reset shuffle w0 = (Ok tt, w) → played w
| played_update w joint_action r w' :
    played w → update joint_action w = (r, w') → played w'.

(** ** Sample shuffles and worlds *)

(** Two orders the shuffle can return: the second and third entries
    exchanged, and the first and third exchanged. *)
Definition swap12 (l : list Z) : list Z :=
  match l with a :: b :: c :: l' => a :: c :: b :: l' | _ => l end.

Definition swap02 (l : list Z) : list Z :=
  match l with a :: b :: c :: l' => c :: b :: a :: l' | _ => l end.

(** [World(5, 2, 1, 42)] and [World(5, 1, 0, 42)] as [__init__] leaves them. *)
Definition fresh_world : World :=
  mkWorld 42 5 2 1 1 (replicate 5 (replicate 5 0)) ∅ [] None.

Definition lone_world : World :=
  mkWorld 42 5 1 0 0 (replicate 5 (replicate 5 0)) ∅ [] None.

(** [World(5, 1, 2, 42)] and the over-full [World(4, 3, 2, 42)] as
    [__init__] leaves them. *)
Definition solo_world : World :=
  mkWorld 42 5 1 2 2 (replicate 5 (replicate 5 0)) ∅ [] None.

Definition crowded_world : World :=
  mkWorld 42 4 3 2 2 (replicate 4 (replicate 4 0)) ∅ [] None.

(** Size 5, agents at (1,1) and (3,1), a target between them at (2,1). *)
Definition pincer_world : World :=
  mkWorld 42 5 2 1 1
    [ [0; 0; 0; 0; 0];
      [0; 1; 0; 0; 0];
      [0; 2; 0; 0; 0];
      [0; 1; 0; 0; 0];
      [0; 0; 0; 0; 0] ]
    {[ "agent_1" := mkAgent 1 (1, 1); "agent_2" := mkAgent 2 (3, 1) ]}
    [ mkTarget (2, 1) ] None.

(** ** The monad *)

Lemma bind_ok {A B} (c : M A) (f : A → M B) w a w' :
  c w = (Ok a, w') → (c ≫= f) w = f a w'.
Proof. intros H. unfold mbind, M_bind. by rewrite H. Qed.

Lemma bind_raise {A B} (c : M A) (f : A → M B) w e w' :
  c w = (Raise e, w') → (c ≫= f) w = (Raise e, w').
Proof. intros H. unfold mbind, M_bind. by rewrite H. Qed.

Lemma bind_unfold {A B} (c : M A) (f : A → M B) w :
  (c ≫= f) w = match c w with (Ok a, w') => f a w' | (Raise e, w') => (Raise e, w') end.
Proof. reflexivity. Qed.

Ltac mred :=
  repeat (rewrite bind_unfold
          || (progress unfold gets, lift, modify, mret, M_ret)
          || (progress cbn beta iota)).

Lemma for_app {A} (l1 l2 : list A) body w :
  for_ (l1 ++ l2) body w = (for_ l1 body;; for_ l2 body) w.
Proof.
  revert w. induction l1 as [|x l1 IH]; intros w; simpl.
  - reflexivity.
  - rewrite !bind_unfold. destruct (body x w) as [[[]|e] w1]; [|done].
    rewrite IH. reflexivity.
Qed.

Lemma for_row {A B} (x : A) (l2 : list B) (body : A * B → M unit) w :
  for_ (j ← l2; [(x, j)]) body w = for_ l2 (λ j, body (x, j)) w.
Proof.
  revert w. induction l2 as [|y l2 IH]; intros w; [done|].
  simpl. rewrite !bind_unfold. destruct (body (x, y) w) as [[[]|e] w1]; [|done].
  apply IH.
Qed.

Lemma for_nested {A B} (l1 : list A) (l2 : list B) (body : A * B → M unit) w :
  for_ l1 (λ i, for_ l2 (λ j, body (i, j))) w
  = for_ (i ← l1; j ← l2; [(i, j)]) body w.
Proof.
  revert w. induction l1 as [|x l1 IH]; intros w; [done|].
  cbn [for_ mbind list_bind]. rewrite for_app, !bind_unfold.
  rewrite (for_row x l2 body w).
  destruct (for_ l2 (λ j, body (x, j)) w) as [[[]|e] w1]; [|done].
  apply IH.
Qed.

(** ** Arrays *)

Lemma norm_index_inb (n : nat) (i : Z) :
  0 ≤ i < Z.of_nat n → norm_index n i = Ok (Z.to_nat i).
Proof. intros H. unfold norm_index. by rewrite bool_decide_true. Qed.

Lemma getitem_inb {A} (l : list A) (i : Z) (x : A) :
  0 ≤ i → l !! Z.to_nat i = Some x → getitem l i = Ok x.
Proof.
  intros Hi Hx. unfold getitem.
  rewrite norm_index_inb by (apply lookup_lt_Some in Hx; lia).
  simpl. by rewrite Hx.
Qed.

Lemma square_row sz a c :
  square sz a → inb sz c →
  ∃ row, a !! Z.to_nat c.1 = Some row ∧ length row = Z.to_nat sz.
Proof.
  intros [Hlen Hrows] [H1 H2].
  destruct (lookup_lt_is_Some_2 a (Z.to_nat c.1)) as [row Hrow]; [lia|].
  exists row. split; [done|].
  by eapply (Forall_lookup_1 _ _ _ _ Hrows).
Qed.

Lemma nd_getitem_lookup sz a c :
  square sz a → inb sz c →
  ∃ row v, a !! Z.to_nat c.1 = Some row ∧ row !! Z.to_nat c.2 = Some v
           ∧ nd_getitem a c = Ok v.
Proof.
  intros Hsq Hc. destruct (square_row sz a c Hsq Hc) as (row & Hrow & Hlen).
  destruct Hc as [H1 H2].
  destruct (lookup_lt_is_Some_2 row (Z.to_nat c.2)) as [v Hv]; [lia|].
  exists row, v. repeat split; try done.
  unfold nd_getitem. rewrite (getitem_inb a c.1 row) by (done || lia).
  simpl. by apply getitem_inb; [lia|].
Qed.

Lemma nd_getitem_spec sz a c :
  square sz a → inb sz c → ∃ v, nd_getitem a c = Ok v.
Proof.
  intros Hsq Hc. destruct (nd_getitem_lookup sz a c Hsq Hc) as (? & v & ? & ? & ?).
  by exists v.
Qed.

Lemma nd_ext sz a b :
  square sz a → square sz b →
  (∀ c, inb sz c → nd_getitem a c = nd_getitem b c) → a = b.
Proof.
  intros Ha Hb Heq. apply list_eq. intros i.
  destruct (decide (i < Z.to_nat sz)%nat) as [Hi|Hi].
  2: { rewrite !lookup_ge_None_2; [done|destruct Hb; lia|destruct Ha; lia]. }
  destruct (lookup_lt_is_Some_2 a i) as [ra Hra]; [destruct Ha; lia|].
  destruct (lookup_lt_is_Some_2 b i) as [rb Hrb]; [destruct Hb; lia|].
  rewrite Hra, Hrb. f_equal. apply list_eq. intros j.
  assert (length ra = Z.to_nat sz) as Hla
    by (destruct Ha as [_ Ha]; by eapply (Forall_lookup_1 _ _ _ _ Ha)).
  assert (length rb = Z.to_nat sz) as Hlb
    by (destruct Hb as [_ Hb]; by eapply (Forall_lookup_1 _ _ _ _ Hb)).
  destruct (decide (j < Z.to_nat sz)%nat) as [Hj|Hj].
  2: { rewrite !lookup_ge_None_2; [done|lia|lia]. }
  assert (inb sz (Z.of_nat i, Z.of_nat j)) as Hc by (unfold inb; simpl; lia).
  specialize (Heq _ Hc).
  destruct (nd_getitem_lookup sz a _ Ha Hc) as (ra' & va & Hra' & Hva & Hga).
  destruct (nd_getitem_lookup sz b _ Hb Hc) as (rb' & vb & Hrb' & Hvb & Hgb).
  simpl in *. rewrite Nat2Z.id in *. simplify_eq. congruence.
Qed.

Lemma sum_list_with_insert {A} (f : A → nat) (l : list A) i x y :
  l !! i = Some x →
  (sum_list_with f (<[i := y]> l) + f x = sum_list_with f l + f y)%nat.
Proof.
  revert i. induction l as [|z l IH]; intros [|i] Hi; simplify_eq/=; [lia|].
  specialize (IH _ Hi). lia.
Qed.

Lemma nd_setitem_spec sz a c v :
  square sz a → inb sz c →
  ∃ a', nd_setitem a c v = Ok a' ∧ square sz a' ∧ nd_getitem a' c = Ok v
    ∧ (∀ c', inb sz c' → c' ≠ c → nd_getitem a' c' = nd_getitem a c')
    ∧ (∀ x old, nd_getitem a c = Ok old →
         (count_elem x a' + (if bool_decide (old = x) then 1 else 0)
          = count_elem x a + (if bool_decide (v = x) then 1 else 0))%nat).
Proof.
  intros Hsq Hc.
  destruct (nd_getitem_lookup sz a c Hsq Hc) as (row & old & Hrow & Hold & Hget).
  assert (length row = Z.to_nat sz) as Hlen
    by (destruct Hsq as [_ Hsq]; by eapply (Forall_lookup_1 _ _ _ _ Hsq)).
  pose proof Hc as [H1 H2].
  exists (<[Z.to_nat c.1 := <[Z.to_nat c.2 := v]> row]> a).
  assert (square sz (<[Z.to_nat c.1 := <[Z.to_nat c.2 := v]> row]> a)) as Hsq'.
  { destruct Hsq as [Hl Hrows]. split; [by rewrite length_insert|].
    apply Forall_insert; [done|]. by rewrite length_insert. }
  split; [|split; [done|split; [|split]]].
  - unfold nd_setitem. rewrite norm_index_inb by (destruct Hsq; lia). simpl.
    rewrite Hrow. rewrite norm_index_inb by lia. done.
  - unfold nd_getitem.
    rewrite (getitem_inb _ c.1 (<[Z.to_nat c.2 := v]> row)); [|lia|].
    + simpl. apply getitem_inb; [lia|]. apply list_lookup_insert_eq. lia.
    + apply list_lookup_insert_eq. destruct Hsq; lia.
  - intros c' Hc' Hne.
    destruct (nd_getitem_lookup sz a c' Hsq Hc') as (row' & v' & Hrow' & Hv' & ->).
    pose proof Hc' as [H1' H2'].
    unfold nd_getitem.
    destruct (decide (Z.to_nat c'.1 = Z.to_nat c.1)) as [Heq|Hneq].
    + rewrite (getitem_inb _ c'.1 (<[Z.to_nat c.2 := v]> row)); [|lia|].
      2: { rewrite Heq. apply list_lookup_insert_eq. destruct Hsq; lia. }
      simpl. apply getitem_inb; [lia|].
      rewrite list_lookup_insert_ne.
      * rewrite Heq in Hrow'. by simplify_eq.
      * intros Heq2. apply Hne. destruct c, c'; simpl in *. f_equal; lia.
    + rewrite (getitem_inb _ c'.1 row'); [|lia|].
      2: { by rewrite list_lookup_insert_ne. }
      simpl. by apply getitem_inb; [lia|].
  - intros x old' Hold'. rewrite Hget in Hold'. simplify_eq.
    unfold count_elem.
    pose proof (sum_list_with_insert
      (sum_list_with (λ x0, if bool_decide (x0 = x) then 1%nat else 0%nat))
      a (Z.to_nat c.1) row (<[Z.to_nat c.2 := v]> row) Hrow) as E1.
    pose proof (sum_list_with_insert
      (λ x0, if bool_decide (x0 = x) then 1%nat else 0%nat)
      row (Z.to_nat c.2) old' v Hold) as E2.
    simpl in *. lia.
Qed.

(** ** The capture test *)

Lemma filter_iff_elem {A} (P Q : A → Prop) `{∀ x, Decision (P x)} `{∀ x, Decision (Q x)}
    (l : list A) :
  (∀ x, x ∈ l → P x ↔ Q x) → filter P l = filter Q l.
Proof.
  induction l as [|x l IH]; intros HPQ; [done|].
  rewrite !filter_cons.
  rewrite IH by (intros y Hy; apply HPQ; by right).
  destruct (decide (P x)) as [HP|HP], (decide (Q x)) as [HQ|HQ]; try done.
  - exfalso. apply HQ, HPQ; [by left|done].
  - exfalso. apply HP, HPQ; [by left|done].
Qed.

Lemma agent_capture_fold sz a (l : list (Z * Z)) (n : Z) :
  square sz a →
  foldl (λ (acc : Res Z) (neighbour : Z * Z),
           n ← acc;
           if bool_decide (0 ≤ neighbour.1 < sz) && bool_decide (0 ≤ neighbour.2 < sz)
           then v ← nd_getitem a neighbour;
                if bool_decide (v = 1) then Ok (n + 1) else Ok n
           else Ok n)
        (Ok n) l
  = Ok (n + Z.of_nat (length (filter (λ nb, inb sz nb ∧ nd_getitem a nb = Ok MapElement.agent) l))).
Proof.
  intros Hsq. revert n. induction l as [|nb l IH]; intros n.
  - simpl. f_equal. lia.
  - cbn [foldl]. rewrite filter_cons.
    destruct (decide (inb sz nb)) as [Hnb|Hnb].
    + destruct (nd_getitem_spec sz a nb Hsq Hnb) as [v Hv].
      destruct Hnb as [H1 H2]. cbn [mbind Res_bind].
      rewrite !bool_decide_true by done. cbn [andb]. rewrite Hv. cbn [mbind Res_bind].
      destruct (decide (v = 1)) as [->|Hv1].
      * rewrite bool_decide_true by done. rewrite IH.
        rewrite decide_True by (split; [by split|done]).
        f_equal. simpl. lia.
      * rewrite bool_decide_false by done. rewrite IH.
        rewrite decide_False; [done|].
        intros [_ E]. unfold MapElement.agent in E. congruence.
    + cbn [mbind Res_bind].
      assert (bool_decide (0 ≤ nb.1 < sz) && bool_decide (0 ≤ nb.2 < sz) = false) as ->.
      { apply andb_false_iff. unfold inb in Hnb.
        destruct (decide (0 ≤ nb.1 < sz)); [right|left]; apply bool_decide_false; tauto. }
      rewrite IH. rewrite decide_False by tauto. done.
Qed.

Lemma agent_capture_spec sz a p :
  square sz a →
  agent_capture p sz a = Ok (bool_decide (2 ≤ n_agent_neighbour sz a p)).
Proof.
  intros Hsq. unfold agent_capture, n_agent_neighbour.
  fold (neighbourhood p). rewrite (agent_capture_fold sz a _ 0 Hsq).
  cbn [mbind Res_bind]. f_equal. apply bool_decide_ext. lia.
Qed.

Lemma n_agent_neighbour_ext sz a b p :
  (∀ x, inb sz x → nd_getitem a x = Ok MapElement.agent ↔ nd_getitem b x = Ok MapElement.agent) →
  n_agent_neighbour sz a p = n_agent_neighbour sz b p.
Proof.
  intros H. unfold n_agent_neighbour. do 2 f_equal.
  apply list_filter_iff. intros x. split; intros [Hx E]; (split; [done|]); by apply H.
Qed.

(** ** One cell of the scan *)

Lemma scan_cell_keep sz w c :
  square sz (map w) → inb sz c → ¬ capturable sz (map w) c →
  scan_cell sz c w = (Ok tt, w).
Proof.
  intros Hsq Hc Hn. unfold scan_cell, get_map.
  destruct (nd_getitem_spec sz (map w) c Hsq Hc) as [v Hv].
  mred. rewrite Hv.
  destruct (decide (v = 2)) as [->|Hv2].
  - rewrite bool_decide_true by done. mred.
    rewrite (agent_capture_spec sz _ c Hsq).
    rewrite bool_decide_false; [done|]. intros H2. apply Hn. by split.
  - by rewrite bool_decide_false.
Qed.

Lemma scan_cell_capture sz w c :
  square sz (map w) → inb sz c → capturable sz (map w) c →
  ∃ a', scan_cell sz c w
        = (Ok tt, with_targets_alive (targets_alive w - 1) (with_map a' w))
    ∧ nd_setitem (map w) c 0 = Ok a'.
Proof.
  intros Hsq Hc [Ht Hn]. unfold scan_cell, get_map, set_map.
  destruct (nd_setitem_spec sz (map w) c 0 Hsq Hc) as (a' & Hset & _).
  exists a'. split; [|done].
  mred. rewrite Ht.
  unfold MapElement.target. rewrite bool_decide_true by done.
  mred. rewrite (agent_capture_spec sz _ c Hsq).
  rewrite bool_decide_true by done. mred. rewrite Hset.
  reflexivity.
Qed.

(** ** The scan over a list of cells *)

Lemma capture_keeps_agents sz a a' c :
  square sz a → inb sz c → nd_getitem a c = Ok MapElement.target →
  nd_setitem a c 0 = Ok a' →
  ∀ x, inb sz x → nd_getitem a' x = Ok MapElement.agent ↔ nd_getitem a x = Ok MapElement.agent.
Proof.
  intros Hsq Hc Ht Hset x Hx.
  destruct (nd_setitem_spec sz a c 0 Hsq Hc) as (a'' & Hset' & _ & Hsame & Hother & _).
  rewrite Hset in Hset'. injection Hset' as <-.
  destruct (decide (x = c)) as [->|Hne].
  - rewrite Hsame, Ht. unfold MapElement.agent, MapElement.target. split; congruence.
  - by rewrite Hother.
Qed.

Lemma capturable_after_capture sz a a' c c' :
  square sz a → inb sz c → nd_getitem a c = Ok MapElement.target →
  nd_setitem a c 0 = Ok a' →
  inb sz c' → c' ≠ c → capturable sz a' c' ↔ capturable sz a c'.
Proof.
  intros Hsq Hc Ht Hset Hc' Hne. unfold capturable.
  rewrite (n_agent_neighbour_ext sz a' a c' (capture_keeps_agents sz a a' c Hsq Hc Ht Hset)).
  destruct (nd_setitem_spec sz a c 0 Hsq Hc) as (a'' & Hset' & _ & _ & Hother & _).
  rewrite Hset in Hset'. injection Hset' as <-.
  by rewrite Hother.
Qed.

Lemma scan_cells_spec sz l w :
  square sz (map w) → Forall (inb sz) l → NoDup l →
  ∃ a', for_ l (scan_cell sz) w
        = (Ok tt, with_targets_alive
                    (targets_alive w - Z.of_nat (length (filter (capturable sz (map w)) l)))
                    (with_map a' w))
    ∧ square sz a'
    ∧ (∀ c, inb sz c →
         nd_getitem a' c = if decide (c ∈ l ∧ capturable sz (map w) c) then Ok 0
                           else nd_getitem (map w) c)
    ∧ (∀ x, (count_elem x a'
             + (if bool_decide (x = 2%Z) then length (filter (capturable sz (map w)) l) else 0)
             = count_elem x (map w)
               + (if bool_decide (x = 0%Z) then length (filter (capturable sz (map w)) l) else 0))%nat).
Proof.
  revert w. induction l as [|c l IH]; intros w Hsq Hl Hnd.
  - exists (map w). split; [|split; [done|split]].
    + simpl. unfold mret, M_ret. f_equal. destruct w; simpl. unfold with_targets_alive, with_map.
      simpl. f_equal. lia.
    + intros c Hc. rewrite decide_False; [done|]. intros [H _]. by apply not_elem_of_nil in H.
    + intros x. simpl. by repeat case_bool_decide.
  - apply Forall_cons in Hl as [Hc Hl]. apply NoDup_cons in Hnd as [Hcl Hnd].
    cbn [for_]. rewrite bind_unfold. rewrite filter_cons.
    destruct (decide (capturable sz (map w) c)) as [Hcap|Hcap].
    + destruct (scan_cell_capture sz w c Hsq Hc Hcap) as (a1 & -> & Hset).
      destruct (nd_setitem_spec sz (map w) c 0 Hsq Hc)
        as (a1' & Hset' & Hsq1 & Hsame & Hother & Hcount).
      rewrite Hset in Hset'. injection Hset' as <-.
      set (w1 := with_targets_alive (targets_alive w - 1) (with_map a1 w)).
      destruct (IH w1 Hsq1 Hl Hnd) as (a' & Hrun & Hsq' & Hcells & Hcnt).
      assert (filter (capturable sz (map w1)) l = filter (capturable sz (map w)) l) as Hf.
      { apply filter_iff_elem. intros x Hx.
        apply (capturable_after_capture sz (map w) a1 c x); try done.
        - by destruct Hcap.
        - by eapply (Forall_forall (inb sz) l).
        - intros ->. done. }
      rewrite Hf in Hrun, Hcnt.
      exists a'. split; [|split; [done|split]].
      * rewrite Hrun. f_equal. unfold w1, with_targets_alive, with_map. simpl.
        f_equal. lia.
      * intros x Hx. rewrite (Hcells x Hx).
        destruct (decide (x = c)) as [->|Hne].
        -- rewrite decide_False by (intros [? _]; done).
           rewrite decide_True by (split; [by left|done]). done.
        -- assert (capturable sz (map w1) x ↔ capturable sz (map w) x) as Hiff.
           { apply (capturable_after_capture sz (map w) a1 c x); try done.
             by destruct Hcap. }
           simpl. rewrite (Hother x Hx Hne).
           destruct (decide (x ∈ l ∧ capturable sz a1 x)) as [[H1 H2]|Hno].
           ++ rewrite decide_True; [done|]. split; [by right|]. by apply Hiff.
           ++ rewrite decide_False; [done|]. intros [H1 H2]. apply Hno.
              apply elem_of_cons in H1 as [?|H1]; [done|]. split; [done|].
              by apply Hiff.
      * intros x. destruct Hcap as [Ht _]. specialize (Hcount x _ Ht).
        specialize (Hcnt x). unfold MapElement.target in Hcount.
        rewrite (bool_decide_ext (2 = x) (x = 2)) in Hcount by done.
        rewrite (bool_decide_ext (0 = x) (x = 0)) in Hcount by done.
        simpl in *. repeat case_bool_decide; simpl in *; lia.
    + rewrite (scan_cell_keep sz w c Hsq Hc Hcap).
      destruct (IH w Hsq Hl Hnd) as (a' & Hrun & Hsq' & Hcells & Hcnt).
      exists a'. split; [done|split; [done|split; [|done]]].
      intros x Hx. rewrite (Hcells x Hx).
      destruct (decide (x ∈ l ∧ capturable sz (map w) x)) as [[H1 H2]|Hno].
      * rewrite decide_True; [done|]. split; [by right|done].
      * rewrite decide_False; [done|]. intros [H1 H2]. apply Hno.
        apply elem_of_cons in H1 as [->|H1]; [done|]. by split.
Qed.

(** ** The cells of the grid *)

Lemma elem_of_range a b x : x ∈ range a b ↔ a ≤ x < b.
Proof. unfold range. rewrite elem_of_seqZ. lia. Qed.

Lemma elem_of_grid_cells sz c : c ∈ grid_cells sz ↔ inb sz c.
Proof.
  unfold grid_cells, inb. rewrite list_elem_of_bind. split.
  - intros (i & Hc & Hi). apply list_elem_of_bind in Hc as (j & Hc & Hj).
    apply list_elem_of_singleton in Hc as ->. simpl.
    apply elem_of_range in Hi, Hj. lia.
  - intros [H1 H2]. exists c.1. split; [|by apply elem_of_range].
    apply list_elem_of_bind. exists c.2. split; [|by apply elem_of_range].
    apply list_elem_of_singleton. by destruct c.
Qed.

Lemma NoDup_pairs (l1 l2 : list Z) :
  NoDup l1 → NoDup l2 → NoDup (i ← l1; j ← l2; [(i, j)]).
Proof.
  intros H1 H2. apply NoDup_bind; [| |done].
  - intros i i' c _ _ Hc Hc'.
    apply list_elem_of_bind in Hc as (j & Hc & _).
    apply list_elem_of_bind in Hc' as (j' & Hc' & _).
    apply list_elem_of_singleton in Hc, Hc'. congruence.
  - intros i _. apply NoDup_bind; [| |done].
    + intros j j' c _ _ Hc Hc'. apply list_elem_of_singleton in Hc, Hc'. congruence.
    + intros j _. apply NoDup_singleton.
Qed.

Lemma NoDup_grid_cells sz : NoDup (grid_cells sz).
Proof. apply NoDup_pairs; apply NoDup_seqZ. Qed.

(** ** The scan of the whole grid *)

Lemma update_map_spec w :
  square (size w) (map w) →
  ∃ a', _update_map w
        = (Ok tt, with_targets_alive
                    (targets_alive w
                     - Z.of_nat (length (filter (capturable (size w) (map w))
                                                (grid_cells (size w)))))
                    (with_map a' w))
    ∧ square (size w) a'
    ∧ (∀ c, inb (size w) c →
         nd_getitem a' c = if decide (capturable (size w) (map w) c) then Ok 0
                           else nd_getitem (map w) c)
    ∧ (∀ x, (count_elem x a'
             + (if bool_decide (x = 2%Z)
                then length (filter (capturable (size w) (map w)) (grid_cells (size w)))
                else 0)
             = count_elem x (map w)
               + (if bool_decide (x = 0%Z)
                  then length (filter (capturable (size w) (map w)) (grid_cells (size w)))
                  else 0))%nat).
Proof.
  intros Hsq.
  destruct (scan_cells_spec (size w) (grid_cells (size w)) w Hsq)
    as (a' & Hrun & Hsq' & Hcells & Hcnt).
  { apply Forall_forall. intros c. apply elem_of_grid_cells. }
  { apply NoDup_grid_cells. }
  exists a'. split; [|split; [done|split; [|done]]].
  - unfold _update_map. mred.
    rewrite (for_nested (range 0 (size w)) (range 0 (size w)) (scan_cell (size w)) w).
    exact Hrun.
  - intros c Hc. rewrite (Hcells c Hc).
    destruct (decide (capturable (size w) (map w) c)) as [Hcap|Hcap].
    + rewrite decide_True; [done|]. split; [by apply elem_of_grid_cells|done].
    + rewrite decide_False; [done|]. tauto.
Qed.

Lemma with_same w :
  with_targets_alive (targets_alive w) (with_map (map w) w) = w.
Proof. by destruct w. Qed.

Lemma update_map_noop w :
  square (size w) (map w) →
  (∀ c, inb (size w) c → ¬ capturable (size w) (map w) c) →
  _update_map w = (Ok tt, w).
Proof.
  intros Hsq Hno.
  destruct (update_map_spec w Hsq) as (a' & Hrun & Hsq' & Hcells & Hcnt).
  rewrite Hrun. f_equal.
  assert (filter (capturable (size w) (map w)) (grid_cells (size w)) = []) as ->.
  { apply elem_of_nil_inv. intros c Hc. apply list_elem_of_filter in Hc as [Hcap Hc].
    apply elem_of_grid_cells in Hc. by apply (Hno c). }
  assert (a' = map w) as ->.
  { apply (nd_ext (size w)); [done|done|]. intros c Hc. rewrite (Hcells c Hc).
    rewrite decide_False; [done|]. by apply Hno. }
  simpl. rewrite Z.sub_0_r. apply with_same.
Qed.

Lemma update_map_scanned w a' :
  square (size w) (map w) →
  square (size w) a' →
  (∀ c, inb (size w) c →
     nd_getitem a' c = if decide (capturable (size w) (map w) c) then Ok 0
                       else nd_getitem (map w) c) →
  ∀ c, inb (size w) c → ¬ capturable (size w) a' c.
Proof.
  intros Hsq Hsq' Hcells c Hc [Ht Hn].
  assert (∀ x, inb (size w) x →
            nd_getitem a' x = Ok MapElement.agent ↔ nd_getitem (map w) x = Ok MapElement.agent)
    as Hagents.
  { intros x Hx. rewrite (Hcells x Hx).
    destruct (decide (capturable (size w) (map w) x)) as [[Hx2 _]|_]; [|done].
    rewrite Hx2. unfold MapElement.agent, MapElement.target. split; congruence. }
  rewrite (n_agent_neighbour_ext _ a' (map w) c Hagents) in Hn.
  rewrite (Hcells c Hc) in Ht.
  destruct (decide (capturable (size w) (map w) c)) as [Hcap|Hcap].
  - unfold MapElement.target in Ht. congruence.
  - apply Hcap. by split.
Qed.

(** ** One attempted move *)

Lemma get_agent_ok w aid ag :
  agents w !! aid = Some ag → get_agent aid w = (Ok ag, w).
Proof. intros H. unfold get_agent. mred. by rewrite H. Qed.

Lemma try_move_blocked w aid ag guard dest :
  square (size w) (map w) → agents w !! aid = Some ag →
  (guard (position ag) = true → inb (size w) (dest (position ag))) →
  ¬ (guard (position ag) = true
     ∧ nd_getitem (map w) (dest (position ag)) = Ok MapElement.empty) →
  try_move aid guard dest w = (Ok tt, w).
Proof.
  intros Hsq Hag Hdest Hno. unfold try_move.
  rewrite (bind_ok _ _ w ag w (get_agent_ok w aid ag Hag)). cbn zeta.
  destruct (guard (position ag)) eqn:Hg.
  - destruct (nd_getitem_spec _ _ _ Hsq (Hdest eq_refl)) as [v Hv].
    unfold get_map. mred. rewrite Hv. mred.
    rewrite bool_decide_false; [done|]. intros ->. apply Hno. by split.
  - mred. done.
Qed.

Lemma try_move_done w aid ag guard dest :
  square (size w) (map w) → agents w !! aid = Some ag →
  inb (size w) (position ag) →
  (guard (position ag) = true → inb (size w) (dest (position ag))) →
  guard (position ag) = true →
  nd_getitem (map w) (dest (position ag)) = Ok MapElement.empty →
  ∃ a1 a2,
    nd_setitem (map w) (dest (position ag)) MapElement.agent = Ok a1
    ∧ nd_setitem a1 (position ag) MapElement.empty = Ok a2
    ∧ try_move aid guard dest w
      = (Ok tt, with_agents
                  (alter (λ x, mkAgent (id_elem x) (dest (position ag))) aid (agents w))
                  (with_map a2 w)).
Proof.
  intros Hsq Hag Hpos Hdest Hg Hfree.
  destruct (nd_setitem_spec _ (map w) (dest (position ag)) MapElement.agent Hsq (Hdest Hg))
    as (a1 & Hset1 & Hsq1 & _).
  destruct (nd_setitem_spec _ a1 (position ag) MapElement.empty Hsq1 Hpos)
    as (a2 & Hset2 & Hsq2 & _).
  exists a1, a2. split; [done|split; [done|]].
  unfold try_move.
  rewrite (bind_ok _ _ w ag w (get_agent_ok w aid ag Hag)). cbn zeta.
  rewrite Hg. unfold get_map, set_map, set_position. mred. rewrite Hfree. mred.
  rewrite bool_decide_true by done. mred. rewrite Hset1. mred.
  cbn [map with_map]. rewrite Hset2. reflexivity.
Qed.

(** ** [_update_action] *)

Ltac splits := repeat match goal with |- _ ∧ _ => split end.

Ltac acts :=
  unfold Actions.NOOP, Actions.UP, Actions.DOWN, Actions.LEFT, Actions.RIGHT in *.

Ltac decide_actions :=
  repeat first
    [ rewrite bool_decide_true by (acts; lia)
    | rewrite bool_decide_false by (acts; lia) ].

Lemma update_action_other w aid ag a :
  agents w !! aid = Some ag →
  a ≠ Actions.UP → a ≠ Actions.DOWN → a ≠ Actions.LEFT → a ≠ Actions.RIGHT →
  _update_action a aid w = (Ok tt, w).
Proof.
  intros Hag H1 H2 H3 H4. unfold _update_action.
  rewrite (bind_ok _ _ w ag w (get_agent_ok w aid ag Hag)). mred.
  rewrite !bool_decide_false by done. reflexivity.
Qed.

Lemma update_action_blocked w aid ag a :
  square (size w) (map w) → agents w !! aid = Some ag →
  inb (size w) (position ag) →
  ¬ can_move w a (position ag) →
  _update_action a aid w = (Ok tt, w).
Proof.
  intros Hsq Hag Hpos Hno.
  destruct (decide (a = Actions.UP)) as [->|H1];
    [|destruct (decide (a = Actions.DOWN)) as [->|H2];
      [|destruct (decide (a = Actions.LEFT)) as [->|H3];
        [|destruct (decide (a = Actions.RIGHT)) as [->|H4];
          [|by eapply update_action_other]]]];
    unfold _update_action;
    rewrite (bind_ok _ _ w ag w (get_agent_ok w aid ag Hag)); mred;
    unfold can_move, boundary_check, destination in Hno;
    revert Hno; decide_actions; intros Hno; mred;
    (rewrite (try_move_blocked w aid ag); [reflexivity|done|done| |done]);
    intros Hg; apply bool_decide_eq_true in Hg;
    destruct Hpos as [Hp1 Hp2]; unfold inb; simpl; lia.
Qed.

Lemma update_action_done w aid ag a :
  square (size w) (map w) → agents w !! aid = Some ag →
  inb (size w) (position ag) →
  can_move w a (position ag) →
  inb (size w) (destination a (position ag))
  ∧ destination a (position ag) ≠ position ag
  ∧ ∃ a1 a2,
      nd_setitem (map w) (destination a (position ag)) MapElement.agent = Ok a1
      ∧ nd_setitem a1 (position ag) MapElement.empty = Ok a2
      ∧ _update_action a aid w
        = (Ok tt, with_agents
                    (alter (λ x, mkAgent (id_elem x) (destination a (position ag)))
                           aid (agents w))
                    (with_map a2 w)).
Proof.
  intros Hsq Hag Hpos [Hb Hfree].
  assert (a = Actions.UP ∨ a = Actions.DOWN ∨ a = Actions.LEFT ∨ a = Actions.RIGHT)
    as Ha.
  { unfold boundary_check in Hb. repeat case_bool_decide; try done; tauto. }
  assert (inb (size w) (destination a (position ag))) as Hin.
  { destruct Hpos as [Hp1 Hp2].
    destruct Ha as [-> | [-> | [-> | -> ]]]; unfold boundary_check, destination in *;
      revert Hb; decide_actions; intros Hb; apply bool_decide_eq_true in Hb;
      unfold inb; simpl; lia. }
  split; [done|split].
  { destruct (position ag) as [r c].
    destruct Ha as [-> | [-> | [-> | -> ]]]; unfold destination; decide_actions;
      simpl; intros E; injection E; lia. }
  destruct Ha as [-> | [-> | [-> | -> ]]];
    unfold boundary_check, destination in *;
    revert Hb Hfree Hin; decide_actions; intros Hb Hfree Hin;
    [ pose (g := λ p : Z * Z, bool_decide (p.1 - 1 > 0))
    | pose (g := λ p : Z * Z, bool_decide (p.1 + 1 < size w))
    | pose (g := λ p : Z * Z, bool_decide (p.2 - 1 > 0))
    | pose (g := λ p : Z * Z, bool_decide (p.2 + 1 < size w)) ];
    [ pose (d := λ p : Z * Z, (p.1 - 1, p.2))
    | pose (d := λ p : Z * Z, (p.1 + 1, p.2))
    | pose (d := λ p : Z * Z, (p.1, p.2 - 1))
    | pose (d := λ p : Z * Z, (p.1, p.2 + 1)) ];
    destruct (try_move_done w aid ag g d Hsq Hag Hpos (λ _, Hin) Hb Hfree)
      as (a1 & a2 & Hs1 & Hs2 & Hrun);
    subst g d;
    exists a1, a2; (split; [done|split; [done|]]);
    unfold _update_action;
    rewrite (bind_ok _ _ w ag w (get_agent_ok w aid ag Hag)); mred;
    decide_actions; mred; rewrite Hrun; reflexivity.
Qed.

(** * Movement resolution *)

(** C2: for an agent of the world and a directional action, the agent's
    position changes iff the destination passes the direction's boundary
    check and holds EMPTY; on success the destination is marked AGENT, the
    origin EMPTY and the stored position is the destination; otherwise the
    action is a no-op that raises nothing, and NOOP never moves. *)
Theorem update_action_moves_iff_free (w : World) (agent_id : string) (ag : Agent)
    (action : Z) :
  square (size w) (map w) →
  agents w !! agent_id = Some ag →
  inb (size w) (position ag) →
  action ∈ [Actions.NOOP; Actions.UP; Actions.DOWN; Actions.LEFT; Actions.RIGHT] →
  ∃ w' ag',
    _update_action action agent_id w = (Ok tt, w')
    ∧ agents w' !! agent_id = Some ag'
    ∧ (position ag' ≠ position ag ↔ can_move w action (position ag))
    ∧ (can_move w action (position ag) →
         ag' = mkAgent (id_elem ag) (destination action (position ag))
         ∧ nd_getitem (map w') (destination action (position ag)) = Ok MapElement.agent
         ∧ nd_getitem (map w') (position ag) = Ok MapElement.empty
         ∧ (∀ c, inb (size w) c → c ≠ destination action (position ag) →
                 c ≠ position ag → nd_getitem (map w') c = nd_getitem (map w) c)
         ∧ (∀ k, k ≠ agent_id → agents w' !! k = agents w !! k)
         ∧ targets_alive w' = targets_alive w)
    ∧ (¬ can_move w action (position ag) → w' = w)
    ∧ (action = Actions.NOOP → w' = w).
Proof.
  intros Hsq Hag Hpos _.
  destruct (decide (can_move w action (position ag))) as [Hcan|Hcan].
  - destruct (update_action_done w agent_id ag action Hsq Hag Hpos Hcan)
      as (Hin & Hne & a1 & a2 & Hs1 & Hs2 & Hrun).
    destruct (nd_setitem_spec _ (map w) _ MapElement.agent Hsq Hin)
      as (a1' & Hs1' & Hsq1 & Hd1 & Ho1 & _).
    rewrite Hs1 in Hs1'. injection Hs1' as <-.
    destruct (nd_setitem_spec _ a1 _ MapElement.empty Hsq1 Hpos)
      as (a2' & Hs2' & Hsq2 & Hd2 & Ho2 & _).
    rewrite Hs2 in Hs2'. injection Hs2' as <-.
    eexists _, (mkAgent (id_elem ag) (destination action (position ag))).
    split; [exact Hrun|]. cbn [agents map targets_alive with_agents with_map].
    split; [|split; [|split; [|split]]].
    + rewrite lookup_alter_eq, Hag. done.
    + simpl. tauto.
    + intros _. split; [done|]. split; [|split; [done|split; [|split; [|done]]]].
      * by rewrite (Ho2 _ Hin Hne).
      * intros c Hc Hc1 Hc2. by rewrite (Ho2 c Hc Hc2), (Ho1 c Hc Hc1).
      * intros k Hk. by rewrite lookup_alter_ne.
    + done.
    + intros ->. exfalso. destruct Hcan as [Hb _]. by vm_compute in Hb.
  - exists w, ag.
    split; [by eapply update_action_blocked|].
    split; [done|]. split; [tauto|]. split; [done|]. done.
Qed.

Lemma update_action_moves_iff_free_witness :
  ∃ w' ag',
    _update_action Actions.RIGHT "agent_1" pincer_world = (Ok tt, w')
    ∧ agents w' !! "agent_1" = Some ag'
    ∧ position ag' = (1, 2).
Proof.
  destruct (update_action_moves_iff_free pincer_world "agent_1" (mkAgent 1 (1, 1))
              Actions.RIGHT)
    as (w' & ag' & Hrun & Hag & _ & Hmove & _).
  - split; [reflexivity|]. repeat constructor.
  - reflexivity.
  - unfold inb. simpl. lia.
  - set_solver.
  - exists w', ag'. split; [done|split; [done|]].
    destruct Hmove as (-> & _); [|reflexivity].
    split; reflexivity.
Defined.

(** C10: for an agent of the world and an action code outside
    [{1, 2, 3, 4}] (0 = NOOP, or any out-of-range integer), the move step
    raises nothing and leaves the whole world, hence the grid, the agent's
    position and [targets_alive], as it was. *)
Theorem update_action_unknown_code_is_noop (w : World) (agent_id : string)
    (ag : Agent) (action : Z) :
  agents w !! agent_id = Some ag →
  action ∉ [Actions.UP; Actions.DOWN; Actions.LEFT; Actions.RIGHT] →
  _update_action action agent_id w = (Ok tt, w).
Proof.
  intros Hag Hact. apply (update_action_other w agent_id ag action Hag);
    intros ->; apply Hact; set_solver.
Qed.

Lemma update_action_unknown_code_is_noop_witness :
  _update_action 5 "agent_2" pincer_world = (Ok tt, pincer_world)
  ∧ _update_action (-1) "agent_2" pincer_world = (Ok tt, pincer_world).
Proof.
  split.
  - apply (update_action_unknown_code_is_noop pincer_world "agent_2" (mkAgent 2 (3, 1)) 5).
    + reflexivity.
    + unfold Actions.UP, Actions.DOWN, Actions.LEFT, Actions.RIGHT.
      rewrite !elem_of_cons, elem_of_nil. lia.
  - apply (update_action_unknown_code_is_noop pincer_world "agent_2" (mkAgent 2 (3, 1)) (-1)).
    + reflexivity.
    + unfold Actions.UP, Actions.DOWN, Actions.LEFT, Actions.RIGHT.
      rewrite !elem_of_cons, elem_of_nil. lia.
Defined.

(** * The capture rule *)

Lemma agent_capture_orthogonal_only sz a b p :
  square sz a → square sz b →
  (∀ nb, nb ∈ neighbourhood p → nd_getitem a nb = nd_getitem b nb) →
  agent_capture p sz a = agent_capture p sz b.
Proof.
  intros Ha Hb Hsame. rewrite !agent_capture_spec by done.
  unfold n_agent_neighbour.
  rewrite (filter_iff_elem
             (λ nb, inb sz nb ∧ nd_getitem a nb = Ok MapElement.agent)
             (λ nb, inb sz nb ∧ nd_getitem b nb = Ok MapElement.agent)
             (neighbourhood p)); [done|].
  intros nb Hnb. by rewrite (Hsame nb Hnb).
Qed.

(** C1: the capture scan that ends a tick turns every TARGET cell with at
    least two orthogonal neighbours on the grid marked AGENT into EMPTY and
    takes one off [targets_alive] for each of them; a target with fewer such
    neighbours, and every other cell, is left as it was; and the test looks
    at the four orthogonal neighbours only, so a diagonal agent never counts. *)
Theorem capture_scan_rule (w : World) :
  square (size w) (map w) →
  ∃ w',
    _update_map w = (Ok tt, w')
    ∧ (∀ p, inb (size w) p → nd_getitem (map w) p = Ok MapElement.target →
         (2 ≤ n_agent_neighbour (size w) (map w) p →
            nd_getitem (map w') p = Ok MapElement.empty)
         ∧ (n_agent_neighbour (size w) (map w) p < 2 →
            nd_getitem (map w') p = Ok MapElement.target))
    ∧ (∀ p, inb (size w) p → nd_getitem (map w) p ≠ Ok MapElement.target →
         nd_getitem (map w') p = nd_getitem (map w) p)
    ∧ targets_alive w'
      = targets_alive w
        - Z.of_nat (length (filter (capturable (size w) (map w)) (grid_cells (size w))))
    ∧ ((∀ p, inb (size w) p → nd_getitem (map w) p = Ok MapElement.target →
           n_agent_neighbour (size w) (map w) p < 2) → w' = w)
    ∧ (∀ joint_action w0,
         for_ joint_action (λ item, _update_action item.2 item.1) w0 = (Ok tt, w) →
         update joint_action w0
         = (Ok tt, with_agent_position (position <$> agents w') w'))
    ∧ (∀ p a b, square (size w) a → square (size w) b →
         (∀ nb, nb ∈ neighbourhood p → nd_getitem a nb = nd_getitem b nb) →
         agent_capture p (size w) a = agent_capture p (size w) b).
Proof.
  intros Hsq.
  destruct (update_map_spec w Hsq) as (a' & Hrun & Hsq' & Hcells & Hcnt).
  eexists. split; [exact Hrun|].
  cbn [map targets_alive agents with_targets_alive with_map].
  split; [|split; [|split; [done|split; [|split]]]].
  - intros p Hp Ht. rewrite (Hcells p Hp). split; intros Hn.
    + rewrite decide_True; [done|]. by split.
    + rewrite decide_False; [done|]. intros [_ H2]. lia.
  - intros p Hp Ht. rewrite (Hcells p Hp).
    rewrite decide_False; [done|]. by intros [H1 _].
  - intros Hno.
    assert (_update_map w = (Ok tt, w)) as Hnoop.
    { apply update_map_noop; [done|].
      intros c Hc [H1 H2]. specialize (Hno c Hc H1). lia. }
    rewrite Hrun in Hnoop. by injection Hnoop.
  - intros ja w0 Hmoves. unfold update.
    rewrite (bind_ok _ _ w0 tt w Hmoves).
    rewrite (bind_ok _ _ w tt _ Hrun). reflexivity.
  - intros p a b. apply agent_capture_orthogonal_only.
Qed.

Lemma capture_scan_rule_witness :
  ∃ w', _update_map pincer_world = (Ok tt, w')
        ∧ nd_getitem (map w') (2, 1) = Ok MapElement.empty
        ∧ targets_alive w' = 0.
Proof.
  destruct (capture_scan_rule pincer_world) as (w' & Hrun & Hcap & _ & Hta & _).
  - split; [reflexivity|]. repeat constructor.
  - exists w'. split; [done|]. split.
    + apply (Hcap (2, 1)); [unfold inb; simpl; lia|reflexivity|by vm_compute].
    + rewrite Hta. reflexivity.
Defined.

(** C6: on any grid, running the capture scan a second time right after the
    first changes nothing: the second run returns the world the first one
    left, with the same grid and the same [targets_alive]. *)
Theorem capture_scan_idempotent (w : World) :
  square (size w) (map w) →
  ∃ w', _update_map w = (Ok tt, w')
        ∧ _update_map w' = (Ok tt, w')
        ∧ (_update_map;; _update_map) w = _update_map w.
Proof.
  intros Hsq.
  destruct (update_map_spec w Hsq) as (a' & Hrun & Hsq' & Hcells & _).
  eexists. split; [exact Hrun|].
  assert (_update_map
            (with_targets_alive
               (targets_alive w
                - Z.of_nat (length (filter (capturable (size w) (map w))
                                           (grid_cells (size w)))))
               (with_map a' w))
          = (Ok tt,
             with_targets_alive
               (targets_alive w
                - Z.of_nat (length (filter (capturable (size w) (map w))
                                           (grid_cells (size w)))))
               (with_map a' w))) as Hagain.
  { apply update_map_noop; cbn [size map with_targets_alive with_map]; [done|].
    by apply update_map_scanned. }
  split; [exact Hagain|].
  rewrite (bind_ok _ _ w tt _ Hrun). rewrite Hagain. by rewrite Hrun.
Qed.

Lemma capture_scan_idempotent_witness :
  ∃ w', _update_map pincer_world = (Ok tt, w') ∧ _update_map w' = (Ok tt, w').
Proof.
  destruct (capture_scan_idempotent pincer_world) as (w' & H1 & H2 & _).
  - split; [reflexivity|]. repeat constructor.
  - by exists w'.
Defined.

(** * What a move keeps *)

Lemma update_action_absent w a aid :
  agents w !! aid = None → _update_action a aid w = (Raise KeyError, w).
Proof.
  intros H. unfold _update_action, get_agent. mred. by rewrite H.
Qed.

Lemma update_action_step w a aid r w' :
  World_ok w → _update_action a aid w = (r, w') →
  World_ok w'
  ∧ size w' = size w ∧ nb_agents w' = nb_agents w ∧ nb_targets w' = nb_targets w
  ∧ targets_alive w' = targets_alive w
  ∧ (count_elem 2 (map w') ≤ count_elem 2 (map w))%nat
  ∧ (∀ k, agents w' !! k = None ↔ agents w !! k = None)
  ∧ (is_Some (agents w !! aid) → r = Ok tt)
  ∧ (agents w !! aid = None → r = Raise KeyError ∧ w' = w).
Proof.
  intros Hok Hrun. pose proof Hok as [Hsq Hag].
  destruct (agents w !! aid) as [ag|] eqn:Hlook.
  2: { rewrite update_action_absent in Hrun by done. injection Hrun as <- <-.
       splits; done. }
  pose proof (Hag _ _ Hlook) as Hpos.
  destruct (decide (can_move w a (position ag))) as [Hcan|Hcan].
  2: { rewrite (update_action_blocked w aid ag a Hsq Hlook Hpos Hcan) in Hrun.
       injection Hrun as <- <-. splits; done. }
  destruct (update_action_done w aid ag a Hsq Hlook Hpos Hcan)
    as (Hin & Hne & a1 & a2 & Hs1 & Hs2 & Hrun').
  rewrite Hrun' in Hrun. injection Hrun as <- <-.
  destruct (nd_setitem_spec _ (map w) _ MapElement.agent Hsq Hin)
    as (a1' & Hs1' & Hsq1 & _ & _ & Hc1).
  rewrite Hs1 in Hs1'. injection Hs1' as <-.
  destruct (nd_setitem_spec _ a1 _ MapElement.empty Hsq1 Hpos)
    as (a2' & Hs2' & Hsq2 & _ & _ & Hc2).
  rewrite Hs2 in Hs2'. injection Hs2' as <-.
  cbn [size nb_agents nb_targets targets_alive map agents with_agents with_map].
  split; [split|].
  - done.
  - cbn [size agents with_agents with_map]. intros k ag' Hk.
    destruct (decide (k = aid)) as [->|Hkne].
    + rewrite lookup_alter_eq, Hlook in Hk. simpl in Hk. by injection Hk as <-.
    + rewrite lookup_alter_ne in Hk by done. by eapply Hag.
  - splits; try done.
    + destruct Hcan as [_ Hfree]. specialize (Hc1 2 _ Hfree).
      destruct (nd_getitem_spec _ a1 _ Hsq1 Hpos) as [v Hv]. specialize (Hc2 2 _ Hv).
      unfold MapElement.empty, MapElement.agent in *.
      rewrite !(bool_decide_false (0 = 2)), !(bool_decide_false (1 = 2)) in * by done.
      lia.
    + intros k. destruct (decide (k = aid)) as [->|Hkne].
      * rewrite lookup_alter_eq, Hlook. done.
      * by rewrite lookup_alter_ne.
Qed.

Lemma moves_step l : ∀ w r w',
  World_ok w → moves l w = (r, w') →
  World_ok w'
  ∧ size w' = size w ∧ nb_agents w' = nb_agents w ∧ nb_targets w' = nb_targets w
  ∧ targets_alive w' = targets_alive w
  ∧ (count_elem 2 (map w') ≤ count_elem 2 (map w))%nat
  ∧ (∀ k, agents w' !! k = None ↔ agents w !! k = None).
Proof.
  induction l as [|[aid a] l IH]; intros w r w' Hok Hrun.
  - injection Hrun as <- <-. splits; done.
  - unfold moves in Hrun. cbn [for_] in Hrun. rewrite bind_unfold in Hrun.
    cbn [fst snd] in Hrun.
    destruct (_update_action a aid w) as [r1 w1] eqn:Hstep.
    destruct (update_action_step w a aid r1 w1 Hok Hstep)
      as (Hok1 & E1 & E2 & E3 & E4 & E5 & E6 & _).
    destruct r1 as [[]|e].
    + destruct (IH w1 r w' Hok1 Hrun) as (Hok' & F1 & F2 & F3 & F4 & F5 & F6).
      splits; try done; try congruence; try lia.
      intros k. by rewrite F6, E6.
    + injection Hrun as <- <-. splits; done.
Qed.

Lemma moves_all_present l : ∀ w,
  World_ok w → (∀ item, item ∈ l → is_Some (agents w !! item.1)) →
  ∃ w', moves l w = (Ok tt, w').
Proof.
  induction l as [|[aid a] l IH]; intros w Hok Hall.
  - by exists w.
  - unfold moves. cbn [for_]. rewrite bind_unfold. cbn [fst snd].
    destruct (_update_action a aid w) as [r1 w1] eqn:Hstep.
    destruct (update_action_step w a aid r1 w1 Hok Hstep)
      as (Hok1 & _ & _ & _ & _ & _ & E6 & Hr & _).
    rewrite Hr by (apply (Hall (aid, a)); by left).
    apply (IH w1 Hok1). intros item Hitem.
    destruct (agents w1 !! item.1) eqn:Hk; [done|].
    apply E6 in Hk. destruct (Hall item) as [? Hs]; [by right|]. congruence.
Qed.

Lemma moves_absent pre k a post w w1 :
  moves pre w = (Ok tt, w1) → agents w1 !! k = None →
  moves (pre ++ (k, a) :: post) w = (Raise KeyError, w1).
Proof.
  intros Hpre Hk. unfold moves in *. rewrite for_app.
  rewrite (bind_ok _ _ w tt w1 Hpre). cbn [for_]. rewrite bind_unfold.
  simpl. by rewrite update_action_absent.
Qed.

(** * The tick *)

Lemma update_unfold ja w :
  update ja w = (moves ja;; _update_map;; _update_position_state) w.
Proof. reflexivity. Qed.

(** C9, as the code has it: [update] validates nothing and rolls nothing
    back.  On a well-formed world, if every name of the joint action is an
    agent, the whole tick (the moves in order, the capture scan, the
    projection) completes; if a name is absent, [update] raises [KeyError]
    at the first such entry and leaves the world as the moves of the
    entries before it made it, with no capture scan and no projection. *)
Theorem update_completes_or_stops_at_unknown_agent (w : World) :
  World_ok w →
  (∀ joint_action,
     (∀ item, item ∈ joint_action → is_Some (agents w !! item.1)) →
     ∃ w1 w2,
       moves joint_action w = (Ok tt, w1)
       ∧ _update_map w1 = (Ok tt, w2)
       ∧ update joint_action w
         = (Ok tt, with_agent_position (position <$> agents w2) w2))
  ∧ (∀ pre k a post,
       (∀ item, item ∈ pre → is_Some (agents w !! item.1)) →
       agents w !! k = None →
       ∃ w1,
         moves pre w = (Ok tt, w1)
         ∧ update (pre ++ (k, a) :: post) w = (Raise KeyError, w1)).
Proof.
  intros Hok. split.
  - intros ja Hall.
    destruct (moves_all_present ja w Hok Hall) as [w1 Hmoves].
    destruct (moves_step ja w (Ok tt) w1 Hok Hmoves) as ([Hsq1 _] & _).
    destruct (update_map_spec w1 Hsq1) as (a' & Hscan & _).
    eexists w1, _. split; [done|split; [exact Hscan|]].
    rewrite update_unfold, (bind_ok _ _ w tt w1 Hmoves), (bind_ok _ _ w1 tt _ Hscan).
    reflexivity.
  - intros pre k a post Hall Hk.
    destruct (moves_all_present pre w Hok Hall) as [w1 Hmoves].
    destruct (moves_step pre w (Ok tt) w1 Hok Hmoves) as (_ & _ & _ & _ & _ & _ & Hdom).
    exists w1. split; [done|].
    rewrite update_unfold.
    apply bind_raise. apply moves_absent; [done|]. by apply Hdom.
Qed.

Lemma pincer_world_ok : World_ok pincer_world.
Proof.
  split.
  - split; [reflexivity|]. repeat constructor.
  - intros k ag Hk.
    destruct (decide (k = "agent_1")) as [->|H1];
      [|destruct (decide (k = "agent_2")) as [->|H2]].
    + vm_compute in Hk. injection Hk as <-. unfold inb. simpl. lia.
    + vm_compute in Hk. injection Hk as <-. unfold inb. simpl. lia.
    + unfold pincer_world in Hk. cbn [agents] in Hk.
      rewrite lookup_insert_ne in Hk by done.
      rewrite lookup_singleton_ne in Hk by done. done.
Defined.

Lemma update_completes_or_stops_at_unknown_agent_witness :
  ∃ w1, moves [("agent_1", Actions.RIGHT)] pincer_world = (Ok tt, w1)
        ∧ update [("agent_1", Actions.RIGHT); ("agent_9", Actions.NOOP)] pincer_world
          = (Raise KeyError, w1).
Proof.
  destruct (update_completes_or_stops_at_unknown_agent pincer_world pincer_world_ok)
    as [_ Hstop].
  apply (Hstop [("agent_1", Actions.RIGHT)] "agent_9" Actions.NOOP []).
  - intros item Hitem. apply list_elem_of_singleton in Hitem as ->. by eexists.
  - reflexivity.
Defined.

(** C9, as stated, fails: after [World(5, 2, 1, 42).reset()] with the
    index array left in order (agents at (1,1) and (2,1), target at (3,1)),
    a joint action whose second name is no agent raises [KeyError] after
    the first agent has moved to (1,2), and the world keeps that move. *)
Lemma update_not_atomic :
  ∃ w w',
    reset (λ l, l) fresh_world = (Ok tt, w)
    ∧ update [("agent_1", Actions.RIGHT); ("agent_9", Actions.NOOP)] w
      = (Raise KeyError, w')
    ∧ agents w !! "agent_1" = Some (mkAgent 1 (1, 1))
    ∧ agents w' !! "agent_1" = Some (mkAgent 1 (1, 2))
    ∧ nd_getitem (map w) (1, 2) = Ok MapElement.empty
    ∧ nd_getitem (map w') (1, 2) = Ok MapElement.agent
    ∧ w' ≠ w.
Proof.
  eexists _, _. split; [vm_compute; reflexivity|].
  split; [vm_compute; reflexivity|].
  split; [vm_compute; reflexivity|]. split; [vm_compute; reflexivity|].
  split; [reflexivity|]. split; [reflexivity|].
  intros E. apply (f_equal (λ w, nd_getitem (map w) (1, 2))) in E.
  vm_compute in E. discriminate.
Qed.

(** * Placement *)

Lemma mapM_res_cons {A B} (f : A → Res B) (x : A) (l : list A) :
  mapM f (x :: l) = (y ← f x; k ← mapM f l; Ok (y :: k)).
Proof. reflexivity. Qed.

Lemma mapM_res_ok {A B} (f : A → Res B) (g : A → B) (l : list A) :
  (∀ x, x ∈ l → f x = Ok (g x)) → mapM f l = Ok (g <$> l).
Proof.
  induction l as [|x l IH]; intros H; [done|].
  rewrite mapM_res_cons, (H x) by (by left).
  rewrite IH by (intros y Hy; apply H; by right).
  reflexivity.
Qed.

Lemma mapM_res_inv {A B} (f : A → Res B) (l : list A) (ys : list B) :
  mapM f l = Ok ys → Forall2 (λ x y, f x = Ok y) l ys.
Proof.
  revert ys. induction l as [|x l IH]; intros ys H.
  - injection H as <-. constructor.
  - rewrite mapM_res_cons in H. destruct (f x) as [y|e] eqn:Hx; [|done].
    cbn [mbind Res_bind] in H.
    destruct (mapM f l) as [k|e] eqn:Hl; [|done].
    injection H as <-. constructor; [done|]. by apply IH.
Qed.

Lemma getitem_elem {A} (l : list A) (i : Z) (x : A) :
  getitem l i = Ok x → x ∈ l.
Proof.
  unfold getitem. destruct (norm_index (length l) i) as [k|e]; [|done].
  cbn [mbind Res_bind]. destruct (l !! k) as [y|] eqn:Hk; [|done].
  intros [= <-]. by eapply list_elem_of_lookup_2.
Qed.

Lemma length_pairs {A B C} (f : A → B → C) (l1 : list A) (l2 : list B) :
  length (x ← l1; y ← l2; [f x y]) = (length l1 * length l2)%nat.
Proof.
  induction l1 as [|x l1 IH]; [done|].
  cbn [mbind list_bind]. rewrite length_app. cbn [mbind list_bind] in IH. rewrite IH.
  assert (length (l2 ≫= λ y, [f x y]) = length l2) as ->; [|simpl; lia].
  clear. induction l2 as [|y l2 IH]; [done|]. cbn [mbind list_bind]. simpl. by f_equal.
Qed.

Lemma elem_of_all_positions sz c : c ∈ all_positions sz ↔ interior sz c.
Proof.
  unfold all_positions, interior. rewrite list_elem_of_bind. split.
  - intros (j & Hc & Hj). apply list_elem_of_bind in Hc as (i & Hc & Hi).
    apply list_elem_of_singleton in Hc as ->. simpl.
    apply elem_of_range in Hi, Hj. lia.
  - intros [H1 H2]. exists c.2. split; [|apply elem_of_range; lia].
    apply list_elem_of_bind. exists c.1. split; [|apply elem_of_range; lia].
    apply list_elem_of_singleton. by destruct c.
Qed.

Lemma NoDup_all_positions sz : NoDup (all_positions sz).
Proof.
  unfold all_positions. apply NoDup_bind; [| |apply NoDup_seqZ].
  - intros j j' c _ _ Hc Hc'.
    apply list_elem_of_bind in Hc as (i & Hc & _).
    apply list_elem_of_bind in Hc' as (i' & Hc' & _).
    apply list_elem_of_singleton in Hc, Hc'. congruence.
  - intros j _. apply NoDup_bind; [| |apply NoDup_seqZ].
    + intros i i' c _ _ Hc Hc'. apply list_elem_of_singleton in Hc, Hc'. congruence.
    + intros i _. apply NoDup_singleton.
Qed.

Lemma length_all_positions sz :
  2 ≤ sz → length (all_positions sz) = Z.to_nat ((sz - 2) * (sz - 2)).
Proof.
  intros Hsz. unfold all_positions. rewrite length_pairs.
  unfold range. rewrite !length_seqZ.
  replace (sz - 1 - 1) with (sz - 2) by lia. by rewrite Z2Nat.inj_mul by lia.
Qed.

Lemma interior_inb sz c : interior sz c → inb sz c.
Proof. unfold interior, inb. lia. Qed.

Lemma shuffled_facts (random_idx : list Z) (N : Z) :
  random_idx ≡ₚ range 0 N →
  length random_idx = Z.to_nat N ∧ NoDup random_idx
  ∧ ∀ k, k ∈ random_idx → 0 ≤ k < N.
Proof.
  intros Hperm. splits.
  - rewrite Hperm. unfold range. rewrite length_seqZ. f_equal. lia.
  - rewrite Hperm. apply NoDup_seqZ.
  - intros k Hk. rewrite Hperm in Hk. apply elem_of_range in Hk. lia.
Qed.

Lemma pick_drawn random_idx positions N i :
  random_idx ≡ₚ range 0 N → length positions = Z.to_nat N → 0 ≤ i < N →
  pick random_idx positions i = Ok (drawn random_idx positions i)
  ∧ drawn random_idx positions i ∈ positions.
Proof.
  intros Hperm Hlen Hi.
  destruct (shuffled_facts random_idx N Hperm) as (Hlr & _ & Hrange).
  destruct (lookup_lt_is_Some_2 random_idx (Z.to_nat i)) as [k Hk]; [lia|].
  assert (0 ≤ k < N) as Hkr by (apply Hrange; by eapply list_elem_of_lookup_2).
  destruct (lookup_lt_is_Some_2 positions (Z.to_nat k)) as [p Hp]; [lia|].
  unfold pick, drawn.
  rewrite (list_lookup_total_correct _ _ _ Hk), (list_lookup_total_correct _ _ _ Hp).
  split; [|by eapply list_elem_of_lookup_2].
  rewrite (getitem_inb random_idx i k) by (lia || done).
  cbn [mbind Res_bind]. apply getitem_inb; [lia|done].
Qed.

Lemma drawn_inj random_idx positions N i i' :
  random_idx ≡ₚ range 0 N → length positions = Z.to_nat N → NoDup positions →
  0 ≤ i < N → 0 ≤ i' < N →
  drawn random_idx positions i = drawn random_idx positions i' → i = i'.
Proof.
  intros Hperm Hlen Hnd Hi Hi' Heq.
  destruct (shuffled_facts random_idx N Hperm) as (Hlr & Hndr & Hrange).
  destruct (lookup_lt_is_Some_2 random_idx (Z.to_nat i)) as [k Hk]; [lia|].
  destruct (lookup_lt_is_Some_2 random_idx (Z.to_nat i')) as [k' Hk']; [lia|].
  assert (0 ≤ k < N) as Hkr by (apply Hrange; by eapply list_elem_of_lookup_2).
  assert (0 ≤ k' < N) as Hkr' by (apply Hrange; by eapply list_elem_of_lookup_2).
  destruct (lookup_lt_is_Some_2 positions (Z.to_nat k)) as [p Hp]; [lia|].
  destruct (lookup_lt_is_Some_2 positions (Z.to_nat k')) as [p' Hp']; [lia|].
  unfold drawn in Heq.
  rewrite (list_lookup_total_correct _ _ _ Hk), (list_lookup_total_correct _ _ _ Hp),
    (list_lookup_total_correct _ _ _ Hk'), (list_lookup_total_correct _ _ _ Hp') in Heq.
  subst p'.
  pose proof (NoDup_lookup positions _ _ p Hnd Hp Hp') as Hkk.
  assert (k = k') as -> by lia.
  pose proof (NoDup_lookup random_idx _ _ k' Hndr Hk Hk'). lia.
Qed.

Lemma count_replicate (x v : Z) (n : nat) :
  sum_list_with (λ y, if bool_decide (y = x) then 1%nat else 0%nat) (replicate n v)
  = if bool_decide (v = x) then n else 0%nat.
Proof.
  induction n as [|n IH]; simpl; [by case_bool_decide|].
  rewrite IH. by case_bool_decide.
Qed.

Lemma np_zeros_spec sz :
  0 ≤ sz →
  ∃ z, np_zeros sz = Ok z ∧ square sz z
       ∧ (∀ c, inb sz c → nd_getitem z c = Ok 0)
       ∧ (∀ x, x ≠ 0 → count_elem x z = 0%nat).
Proof.
  intros Hsz. eexists. split; [unfold np_zeros; by rewrite bool_decide_false by lia|].
  assert (square sz (replicate (Z.to_nat sz) (replicate (Z.to_nat sz) 0))) as Hsq.
  { split; [by rewrite length_replicate|].
    apply Forall_replicate. by rewrite length_replicate. }
  splits; [done| |].
  - intros c Hc. destruct (nd_getitem_lookup sz _ c Hsq Hc) as (row & v & Hrow & Hv & ->).
    apply lookup_replicate in Hrow as [-> _]. apply lookup_replicate in Hv as [-> _]. done.
  - intros x Hx. unfold count_elem.
    generalize (Z.to_nat sz) at 1. intros n. induction n as [|n IH]; [done|].
    simpl. rewrite IH, count_replicate. by rewrite bool_decide_false by done.
Qed.

Lemma place_spec sz v l : ∀ w,
  square sz (map w) → Forall (inb sz) l →
  ∃ a', for_ l (λ pos, set_map pos v) w = (Ok tt, with_map a' w)
    ∧ square sz a'
    ∧ (∀ c, inb sz c →
         nd_getitem a' c = if decide (c ∈ l) then Ok v else nd_getitem (map w) c)
    ∧ (∀ x, x ≠ v → (count_elem x a' ≤ count_elem x (map w))%nat)
    ∧ (count_elem v a' ≤ count_elem v (map w) + length l)%nat
    ∧ (∀ old, NoDup l → old ≠ v → (∀ c, c ∈ l → nd_getitem (map w) c = Ok old) →
         ∀ x, (count_elem x a' + (if bool_decide (x = old) then length l else 0)
               = count_elem x (map w) + (if bool_decide (x = v) then length l else 0))%nat).
Proof.
  induction l as [|c l IH]; intros w Hsq Hl.
  - exists (map w). splits; try done.
    + simpl. unfold mret, M_ret. f_equal. by destruct w.
    + simpl. lia.
    + intros old _ _ _ x. simpl. repeat case_bool_decide; lia.
  - apply Forall_cons in Hl as [Hc Hl].
    destruct (nd_setitem_spec sz (map w) c v Hsq Hc)
      as (a1 & Hset & Hsq1 & Hsame & Hother & Hcount).
    destruct (IH (with_map a1 w) Hsq1 Hl) as (a' & Hrun & Hsq' & Hcells & Hle & Hlev & Hexact).
    cbn [map with_map] in *.
    destruct (nd_getitem_spec sz (map w) c Hsq Hc) as [o Ho].
    exists a'. splits.
    + cbn [for_]. rewrite bind_unfold. unfold set_map at 1. mred. rewrite Hset. mred.
      rewrite Hrun. reflexivity.
    + done.
    + intros c' Hc'. rewrite (Hcells c' Hc').
      destruct (decide (c' ∈ l)) as [Hin|Hin].
      * rewrite decide_True; [done|]. by right.
      * destruct (decide (c' = c)) as [->|Hne].
        -- rewrite decide_True; [done|]. by left.
        -- rewrite decide_False; [by apply Hother|].
           intros [?|?]%elem_of_cons; done.
    + intros x Hx. specialize (Hle x Hx). specialize (Hcount x o Ho).
      rewrite (bool_decide_false (v = x)) in Hcount by done. lia.
    + specialize (Hcount v o Ho). rewrite (bool_decide_true (v = v)) in Hcount by done.
      simpl. lia.
    + intros old Hnd Hold Hall x. apply NoDup_cons in Hnd as [Hcl Hnd].
      assert (nd_getitem (map w) c = Ok old) as Hco by (apply Hall; by left).
      rewrite Ho in Hco. injection Hco as ->.
      assert (∀ c', c' ∈ l → nd_getitem a1 c' = Ok old) as Hall1.
      { intros c' Hc'. rewrite Hother; [apply Hall; by right| |intros ->; done].
        by eapply (Forall_forall (inb sz) l). }
      pose proof (Hexact old Hnd Hold Hall1 x) as He.
      specialize (Hcount x old Ho).
      rewrite (bool_decide_ext (old = x) (x = old)) in Hcount by done.
      rewrite (bool_decide_ext (v = x) (x = v)) in Hcount by done.
      simpl. repeat case_bool_decide; simpl in *; try lia; congruence.
Qed.

(** ** The agent dictionary *)

Global Instance agent_name_inj : Inj (=) (=) agent_name.
Proof.
  intros i j H. unfold agent_name in H.
  apply (inj (String.append "agent_")) in H. apply (inj pretty) in H. lia.
Qed.

Lemma dict_list_to_map items : dict items = list_to_map (reverse items).
Proof.
  unfold dict. induction items as [|[k v] items IH] using rev_ind; [done|].
  rewrite foldl_app, reverse_snoc. cbn [foldl fst snd]. by rewrite IH.
Qed.

Lemma elem_of_enumerate {A} (l : list A) (x : Z * A) :
  x ∈ enumerate l ↔ ∃ idx, l !! idx = Some x.2 ∧ x.1 = Z.of_nat idx.
Proof.
  unfold enumerate. rewrite elem_of_lookup_zip_with. split.
  - intros (idx & i & p & -> & Hi & Hp). exists idx. split; [done|].
    apply lookup_seqZ in Hi as [-> _]. simpl. lia.
  - intros (idx & Hp & Hi). exists idx, x.1, x.2. splits; [by destruct x| |done].
    apply lookup_seqZ. apply lookup_lt_Some in Hp. lia.
Qed.

Lemma fst_enumerate {A} (l : list A) :
  (enumerate l).*1 = seqZ 0 (Z.of_nat (length l)).
Proof. unfold enumerate. apply fst_zip. rewrite length_seqZ. lia. Qed.

Lemma items_spec (agents_pos : list (Z * Z)) :
  mapM (λ ip : Z * (Z * Z),
          p ← getitem agents_pos ip.1;
          Ok (agent_name ip.1, mkAgent (ip.1 + 1) p))
       (enumerate agents_pos)
  = Ok ((λ ip : Z * (Z * Z), (agent_name ip.1, mkAgent (ip.1 + 1) ip.2))
          <$> enumerate agents_pos).
Proof.
  apply mapM_res_ok. intros [i p] Hip.
  apply elem_of_enumerate in Hip as (idx & Hp & Hi). simpl in *. subst i.
  rewrite (getitem_inb agents_pos (Z.of_nat idx) p); [done|lia|by rewrite Nat2Z.id].
Qed.

Lemma dict_agents_lookup (agents_pos : list (Z * Z)) idx p :
  agents_pos !! idx = Some p →
  dict ((λ ip : Z * (Z * Z), (agent_name ip.1, mkAgent (ip.1 + 1) ip.2))
          <$> enumerate agents_pos)
  !! agent_name (Z.of_nat idx)
  = Some (mkAgent (Z.of_nat idx + 1) p).
Proof.
  intros Hp. rewrite dict_list_to_map.
  apply elem_of_list_to_map_1.
  - rewrite fmap_reverse, reverse_Permutation.
    assert (((λ ip : Z * (Z * Z), (agent_name ip.1, mkAgent (ip.1 + 1) ip.2))
               <$> enumerate agents_pos).*1
            = agent_name <$> (enumerate agents_pos).*1) as ->.
    { rewrite <- !list_fmap_compose. by apply list_fmap_ext. }
    rewrite fst_enumerate. apply NoDup_fmap_2; [apply _|apply NoDup_seqZ].
  - apply elem_of_reverse. apply list_elem_of_fmap.
    exists (Z.of_nat idx, p). split; [done|].
    apply elem_of_enumerate. by exists idx.
Qed.

Lemma dict_agents_values (agents_pos : list (Z * Z)) k ag :
  dict ((λ ip : Z * (Z * Z), (agent_name ip.1, mkAgent (ip.1 + 1) ip.2))
          <$> enumerate agents_pos)
  !! k = Some ag →
  ∃ idx, agents_pos !! idx = Some (position ag)
         ∧ k = agent_name (Z.of_nat idx) ∧ id_elem ag = Z.of_nat idx + 1.
Proof.
  rewrite dict_list_to_map. intros H%elem_of_list_to_map_2.
  apply elem_of_reverse, list_elem_of_fmap in H as ([i p] & [= -> ->] & Hip).
  apply elem_of_enumerate in Hip as (idx & Hp & Hi). simpl in *. subst i.
  by exists idx.
Qed.

(** ** The placement of [reset] *)

Lemma Forall_elem {A} (P : A → Prop) (l : list A) (x : A) :
  Forall P l → x ∈ l → P x.
Proof. intros H. revert x. by apply Forall_forall. Qed.

Lemma placed_facts shuffle w :
  valid_configuration w → shuffles shuffle w →
  length (placed_agents shuffle w) = Z.to_nat (nb_agents w)
  ∧ length (placed_targets shuffle w) = Z.to_nat (nb_targets w)
  ∧ NoDup (placed_agents shuffle w ++ placed_targets shuffle w)
  ∧ Forall (interior (size w)) (placed_agents shuffle w ++ placed_targets shuffle w).
Proof.
  intros (Hsz & Hna & Hnt & Hfit) Hperm. unfold shuffles in Hperm.
  unfold placed_agents, placed_targets.
  set (N := (size w - 2) * (size w - 2)) in *.
  set (ri := shuffle (range 0 N)) in *.
  pose proof (length_all_positions (size w) Hsz) as Hlen. fold N in Hlen.
  assert (range 0 (nb_agents w) ++ range (nb_agents w) (nb_agents w + nb_targets w)
          = range 0 (nb_agents w + nb_targets w)) as Happ.
  { unfold range. rewrite !Z.sub_0_r.
    replace (nb_agents w + nb_targets w - nb_agents w) with (nb_targets w) by lia.
    by rewrite seqZ_app by lia. }
  splits.
  - rewrite length_fmap. unfold range. rewrite length_seqZ. f_equal. lia.
  - rewrite length_fmap. unfold range. rewrite length_seqZ. f_equal. lia.
  - rewrite <- fmap_app, Happ. apply NoDup_fmap_2_strong; [|apply NoDup_seqZ].
    intros i i' Hi Hi' Heq. apply elem_of_range in Hi, Hi'.
    apply (drawn_inj ri (all_positions (size w)) N); try done; try lia.
    apply NoDup_all_positions.
  - rewrite <- fmap_app, Happ. apply Forall_fmap, Forall_forall. intros i Hi.
    apply elem_of_range in Hi. simpl. apply elem_of_all_positions.
    apply (pick_drawn ri (all_positions (size w)) N); try done. lia.
Qed.

Lemma reset_placement_spec shuffle w :
  valid_configuration w → shuffles shuffle w →
  ∃ a, reset_placement shuffle w
       = (Ok tt, mkWorld (seed w) (size w) (nb_agents w) (nb_targets w) (nb_targets w) a
                   (placed_dict (placed_agents shuffle w))
                   (mkTarget <$> placed_targets shuffle w)
                   (agent_position w))
    ∧ square (size w) a
    ∧ (∀ c, inb (size w) c →
         nd_getitem a c
         = if decide (c ∈ placed_targets shuffle w) then Ok MapElement.target
           else if decide (c ∈ placed_agents shuffle w) then Ok MapElement.agent
           else Ok MapElement.empty)
    ∧ count_elem MapElement.agent a = length (placed_agents shuffle w)
    ∧ count_elem MapElement.target a = length (placed_targets shuffle w).
Proof.
  intros Hvalid Hperm.
  destruct (placed_facts shuffle w Hvalid Hperm) as (Hla & Hlt & Hnd & Hint).
  destruct Hvalid as (Hsz & Hna & Hnt & Hfit). unfold shuffles in Hperm.
  pose proof (length_all_positions (size w) Hsz) as Hlen.
  apply NoDup_app in Hnd as (Hnda & Hdisj & Hndt).
  apply Forall_app in Hint as [Hia Hit].
  destruct (np_zeros_spec (size w)) as (z & Hz & Hsqz & Hz0 & Hzc); [lia|].
  set (w2 := with_targets (mkTarget <$> placed_targets shuffle w)
               (with_agents (placed_dict (placed_agents shuffle w))
                  (with_map z (with_targets_alive (nb_targets w) w)))).
  destruct (place_spec (size w) MapElement.agent (placed_agents shuffle w) w2)
    as (a1 & Hrun1 & Hsq1 & Hcells1 & _ & _ & Hexact1).
  { done. }
  { eapply Forall_impl; [exact Hia|]. intros c. apply interior_inb. }
  destruct (place_spec (size w) MapElement.target (placed_targets shuffle w)
              (with_map a1 w2))
    as (a2 & Hrun2 & Hsq2 & Hcells2 & _ & _ & Hexact2).
  { done. }
  { eapply Forall_impl; [exact Hit|]. intros c. apply interior_inb. }
  cbn [map with_map] in *.
  exists a2. splits.
  - unfold reset_placement. mred. cbn [size nb_agents nb_targets with_targets_alive with_map].
    rewrite Hz. mred.
    cbn [size nb_agents nb_targets with_targets_alive with_map].
    rewrite (mapM_res_ok _ (drawn (shuffle (range 0 ((size w - 2) * (size w - 2))))
                                  (all_positions (size w)))).
    2: { intros i Hi. apply elem_of_range in Hi.
         eapply pick_drawn; [exact Hperm|exact Hlen|lia]. }
    mred.
    rewrite (mapM_res_ok _ (drawn (shuffle (range 0 ((size w - 2) * (size w - 2))))
                                  (all_positions (size w)))).
    2: { intros i Hi. apply elem_of_range in Hi.
         eapply pick_drawn; [exact Hperm|exact Hlen|lia]. }
    mred. rewrite items_spec. mred.
    fold (placed_agents shuffle w). fold (placed_targets shuffle w).
    fold (placed_dict (placed_agents shuffle w)).
    fold w2. rewrite Hrun1, Hrun2. reflexivity.
  - done.
  - intros c Hc. rewrite (Hcells2 c Hc).
    destruct (decide (c ∈ placed_targets shuffle w)); [done|].
    rewrite (Hcells1 c Hc).
    destruct (decide (c ∈ placed_agents shuffle w)); [done|]. by apply Hz0.
  - assert (∀ c, c ∈ placed_agents shuffle w → nd_getitem z c = Ok 0) as Hold1.
    { intros c Hc. apply Hz0, interior_inb. by apply (Forall_elem _ _ c Hia). }
    assert (∀ c, c ∈ placed_targets shuffle w → nd_getitem a1 c = Ok 0) as Hold2.
    { intros c Hc. rewrite Hcells1 by (apply interior_inb; by apply (Forall_elem _ _ c Hit)).
      rewrite decide_False by (intros Hin; by apply (Hdisj c Hin)).
      apply Hz0, interior_inb. by apply (Forall_elem _ _ c Hit). }
    pose proof (Hexact1 0 Hnda ltac:(done) Hold1 MapElement.agent) as E1.
    pose proof (Hexact2 0 Hndt ltac:(done) Hold2 MapElement.agent) as E2.
    change (map w2) with z in E1. rewrite (Hzc MapElement.agent) in E1 by done.
    unfold MapElement.agent, MapElement.target in *.
    rewrite !(bool_decide_false (1 = 0)), ?(bool_decide_true (1 = 1)),
      ?(bool_decide_false (1 = 2)) in * by done.
    lia.
  - assert (∀ c, c ∈ placed_agents shuffle w → nd_getitem z c = Ok 0) as Hold1.
    { intros c Hc. apply Hz0, interior_inb. by apply (Forall_elem _ _ c Hia). }
    assert (∀ c, c ∈ placed_targets shuffle w → nd_getitem a1 c = Ok 0) as Hold2.
    { intros c Hc. rewrite Hcells1 by (apply interior_inb; by apply (Forall_elem _ _ c Hit)).
      rewrite decide_False by (intros Hin; by apply (Hdisj c Hin)).
      apply Hz0, interior_inb. by apply (Forall_elem _ _ c Hit). }
    pose proof (Hexact1 0 Hnda ltac:(done) Hold1 MapElement.target) as E1.
    pose proof (Hexact2 0 Hndt ltac:(done) Hold2 MapElement.target) as E2.
    change (map w2) with z in E1. rewrite (Hzc MapElement.target) in E1 by done.
    unfold MapElement.agent, MapElement.target in *.
    rewrite !(bool_decide_false (2 = 0)), ?(bool_decide_true (2 = 2)),
      ?(bool_decide_false (2 = 1)) in * by done.
    lia.
Qed.

Lemma reset_unfold shuffle w :
  reset shuffle w = (reset_placement shuffle;; _update_map;; _update_position_state) w.
Proof. reflexivity. Qed.

(** C4: for a configuration with [nb_agents + nb_targets ≤ (size-2)²] and a
    shuffle that permutes the index array, [reset] returns normally; its
    placement puts [nb_agents] agents and [nb_targets] targets on pairwise
    distinct cells of the interior, marks exactly those cells on a grid that
    is empty elsewhere (the outer ring included) and sets [targets_alive] to
    [nb_targets]; the capture scan that follows keeps the agents, the agent
    cells and the empty ring, and leaves as many TARGET cells as
    [targets_alive] counts. *)
Theorem reset_places_entities (shuffle : list Z → list Z) (w0 : World) :
  valid_configuration w0 → shuffles shuffle w0 →
  ∃ wp w,
    reset_placement shuffle w0 = (Ok tt, wp)
    ∧ reset shuffle w0 = (Ok tt, w)
    ∧ Z.of_nat (length (placed_agents shuffle w0)) = nb_agents w0
    ∧ Z.of_nat (length (placed_targets shuffle w0)) = nb_targets w0
    ∧ NoDup (placed_agents shuffle w0 ++ placed_targets shuffle w0)
    ∧ Forall (interior (size w0)) (placed_agents shuffle w0 ++ placed_targets shuffle w0)
    ∧ (∀ idx p, placed_agents shuffle w0 !! idx = Some p →
         agents wp !! agent_name (Z.of_nat idx) = Some (mkAgent (Z.of_nat idx + 1) p))
    ∧ (∀ k ag, agents wp !! k = Some ag → position ag ∈ placed_agents shuffle w0)
    ∧ targets wp = mkTarget <$> placed_targets shuffle w0
    ∧ targets_alive wp = nb_targets w0
    ∧ Z.of_nat (count_elem MapElement.agent (map wp)) = nb_agents w0
    ∧ Z.of_nat (count_elem MapElement.target (map wp)) = nb_targets w0
    ∧ (∀ c, inb (size w0) c →
         nd_getitem (map wp) c
         = if decide (c ∈ placed_targets shuffle w0) then Ok MapElement.target
           else if decide (c ∈ placed_agents shuffle w0) then Ok MapElement.agent
           else Ok MapElement.empty)
    ∧ agents w = agents wp ∧ targets w = targets wp
    ∧ Z.of_nat (count_elem MapElement.agent (map w)) = nb_agents w0
    ∧ Z.of_nat (count_elem MapElement.target (map w)) = targets_alive w
    ∧ 0 ≤ targets_alive w ≤ nb_targets w0
    ∧ (∀ c, inb (size w0) c →
         nd_getitem (map w) c
         = if decide (capturable (size w0) (map wp) c) then Ok MapElement.empty
           else nd_getitem (map wp) c)
    ∧ (∀ c, inb (size w0) c → ¬ interior (size w0) c →
         nd_getitem (map w) c = Ok MapElement.empty).
Proof.
  intros Hvalid Hperm.
  destruct (placed_facts shuffle w0 Hvalid Hperm) as (Hla & Hlt & Hnd & Hint).
  destruct (reset_placement_spec shuffle w0 Hvalid Hperm)
    as (a & Hplace & Hsq & Hcells & Hca & Hct).
  destruct Hvalid as (Hsz & Hna & Hnt & Hfit).
  set (wp := mkWorld (seed w0) (size w0) (nb_agents w0) (nb_targets w0) (nb_targets w0) a
               (placed_dict (placed_agents shuffle w0))
               (mkTarget <$> placed_targets shuffle w0) (agent_position w0)) in *.
  destruct (update_map_spec wp Hsq) as (a' & Hscan & Hsq' & Hcells' & Hcnt).
  cbn [size map targets_alive wp] in Hscan, Hcells', Hcnt, Hsq'.
  set (k := length (filter (capturable (size w0) a) (grid_cells (size w0)))) in *.
  pose proof (Hcnt MapElement.agent) as Hk1. pose proof (Hcnt MapElement.target) as Hk2.
  unfold MapElement.agent, MapElement.target in Hk1, Hk2, Hca, Hct.
  rewrite (bool_decide_false (1 = 2)), (bool_decide_false (1 = 0)) in Hk1 by done.
  rewrite (bool_decide_true (2 = 2)), (bool_decide_false (2 = 0)) in Hk2 by done.
  eexists wp, _. split; [exact Hplace|]. split.
  { rewrite reset_unfold, (bind_ok _ _ w0 tt wp Hplace), (bind_ok _ _ wp tt _ Hscan).
    reflexivity. }
  cbn [agents targets targets_alive map wp with_agent_position with_targets_alive with_map
       _update_position_state].
  unfold MapElement.agent, MapElement.target, MapElement.empty in *.
  splits; try done; try lia.
  - intros idx p Hp. by apply dict_agents_lookup.
  - intros k0 ag Hk0. apply dict_agents_values in Hk0 as (idx & Hp & _).
    by eapply list_elem_of_lookup_2.
  - intros c Hc Hnot. rewrite (Hcells' c Hc).
    destruct (decide (capturable (size w0) a c)); [done|].
    rewrite (Hcells c Hc).
    apply Forall_app in Hint as [Hia Hit].
    rewrite !decide_False; [done| |].
    + intros Hin. apply Hnot. by apply (Forall_elem _ _ c Hia).
    + intros Hin. apply Hnot. by apply (Forall_elem _ _ c Hit).
Qed.

(** * The invariant of an episode *)

Lemma pick_elem random_idx positions i p :
  pick random_idx positions i = Ok p → p ∈ positions.
Proof.
  unfold pick. destruct (getitem random_idx i) as [k|e]; [|done].
  cbn [mbind Res_bind]. apply getitem_elem.
Qed.

Lemma mapM_pick_elems random_idx positions l ps :
  mapM (pick random_idx positions) l = Ok ps →
  length ps = length l ∧ Forall (λ p, p ∈ positions) ps.
Proof.
  intros H%mapM_res_inv. split; [symmetry; by eapply Forall2_length|].
  induction H as [|i p l ps Hp _ IH]; constructor; [by eapply pick_elem|done].
Qed.

Lemma reset_placement_inv shuffle w0 wp :
  reset_placement shuffle w0 = (Ok tt, wp) →
  size wp = size w0 ∧ nb_targets wp = nb_targets w0 ∧ alive_ok wp.
Proof.
  intros Hrun. unfold reset_placement in Hrun. mred.
  revert Hrun. mred. cbn [size nb_agents nb_targets with_targets_alive with_map].
  destruct (np_zeros (size w0)) as [z|e] eqn:Hz; [|done].
  assert (0 ≤ size w0) as Hsz.
  { unfold np_zeros in Hz. by case_bool_decide; [|lia]. }
  destruct (np_zeros_spec (size w0) Hsz) as (z' & Hz' & Hsqz & Hz0 & Hzc).
  rewrite Hz in Hz'. injection Hz' as <-.
  mred. cbn [size nb_agents nb_targets with_targets_alive with_map].
  destruct (mapM _ (range 0 (nb_agents w0))) as [aps|e] eqn:Haps; [|done].
  mred.
  destruct (mapM _ (range (nb_agents w0) (nb_agents w0 + nb_targets w0)))
    as [tps|e] eqn:Htps; [|done].
  mred. rewrite items_spec. mred.
  apply mapM_pick_elems in Haps as [_ Haps], Htps as [Hlt Htps].
  assert (Forall (inb (size w0)) aps) as Hia.
  { eapply Forall_impl; [exact Haps|]. intros c Hc.
    by apply interior_inb, elem_of_all_positions. }
  assert (Forall (inb (size w0)) tps) as Hit.
  { eapply Forall_impl; [exact Htps|]. intros c Hc.
    by apply interior_inb, elem_of_all_positions. }
  set (w2 := with_targets (mkTarget <$> tps)
               (with_agents _ (with_map z (with_targets_alive (nb_targets w0) w0)))).
  destruct (place_spec (size w0) MapElement.agent aps w2 Hsqz Hia)
    as (a1 & Hrun1 & Hsq1 & _ & Hle1 & _).
  destruct (place_spec (size w0) MapElement.target tps (with_map a1 w2) Hsq1 Hit)
    as (a2 & Hrun2 & Hsq2 & _ & _ & Hle2 & _).
  rewrite Hrun1, Hrun2. intros [= <-].
  cbn [size nb_targets]. splits; [done|done|]. split; [|split].
  - split; [done|]. cbn [size agents with_map with_targets with_agents w2].
    intros k ag Hk. apply dict_agents_values in Hk as (idx & Hp & _).
    apply (Forall_elem _ _ _ Hia). by eapply list_elem_of_lookup_2.
  - cbn [nb_targets targets_alive with_map w2 with_targets with_agents with_targets_alive].
    lia.
  - cbn [map targets_alive nb_targets with_map w2 with_targets with_agents
         with_targets_alive].
    intros Hnt. cbn [map with_map] in Hle2.
    specialize (Hle1 MapElement.target ltac:(done)).
    change (map w2) with z in Hle1. rewrite (Hzc MapElement.target) in Hle1 by done.
    unfold range in Hlt. rewrite length_seqZ in Hlt. lia.
Qed.

Lemma update_map_alive w :
  alive_ok w →
  ∃ w', _update_map w = (Ok tt, w')
        ∧ alive_ok w' ∧ targets_alive w' ≤ targets_alive w
        ∧ size w' = size w ∧ nb_targets w' = nb_targets w ∧ agents w' = agents w.
Proof.
  intros ([Hsq Hag] & Hle & Hcount).
  destruct (update_map_spec w Hsq) as (a' & Hrun & Hsq' & _ & Hcnt).
  eexists. split; [exact Hrun|].
  specialize (Hcnt MapElement.target). unfold MapElement.target in *.
  rewrite (bool_decide_true (2 = 2)), (bool_decide_false (2 = 0)) in Hcnt by done.
  cbn [size nb_targets targets_alive agents with_targets_alive with_map].
  splits; try done; try lia.
  split; [split; done|]. cbn [map targets_alive nb_targets with_targets_alive with_map].
  split; [lia|]. intros Hnt. specialize (Hcount Hnt). unfold MapElement.target. lia.
Qed.

Lemma update_alive ja w r w' :
  alive_ok w → update ja w = (r, w') →
  alive_ok w' ∧ targets_alive w' ≤ targets_alive w
  ∧ size w' = size w ∧ nb_targets w' = nb_targets w.
Proof.
  intros (Hok & Hle & Hcount) Hrun. rewrite update_unfold, bind_unfold in Hrun.
  destruct (moves ja w) as [r1 w1] eqn:Hmoves.
  destruct (moves_step ja w r1 w1 Hok Hmoves) as (Hok1 & E1 & _ & E3 & E4 & E5 & _).
  assert (alive_ok w1) as Halive1.
  { split; [done|]. unfold MapElement.target in *. rewrite E3, E4.
    split; [done|]. intros Hnt. specialize (Hcount Hnt). lia. }
  destruct r1 as [[]|e].
  - destruct (update_map_alive w1 Halive1) as (w2 & Hscan & Halive2 & F1 & F2 & F3 & _).
    rewrite (bind_ok _ _ w1 tt w2 Hscan) in Hrun.
    unfold _update_position_state, modify in Hrun. injection Hrun as <- <-.
    destruct Halive2 as ([Hsq2 Hag2] & Hle2 & Hc2).
    cbn [size nb_targets targets_alive with_agent_position].
    splits; try congruence; try lia.
    split; [split; done|]. done.
  - injection Hrun as <- <-. splits; try done; lia.
Qed.

Lemma reset_alive shuffle w0 w :
  reset shuffle w0 = (Ok tt, w) → alive_ok w.
Proof.
  intros Hrun. rewrite reset_unfold, bind_unfold in Hrun.
  destruct (reset_placement shuffle w0) as [[[]|e] wp] eqn:Hplace; [|done].
  destruct (reset_placement_inv shuffle w0 wp Hplace) as (E1 & E2 & Halive).
  destruct (update_map_alive wp Halive) as (w2 & Hscan & Halive2 & F1 & F2 & F3 & _).
  rewrite (bind_ok _ _ wp tt w2 Hscan) in Hrun.
  unfold _update_position_state, modify in Hrun. injection Hrun as <-.
  destruct Halive2 as ([Hsq2 Hag2] & Hle2 & Hc2).
  split; [split; done|]. done.
Qed.

Lemma reachable_alive w : reachable w → alive_ok w.
Proof.
  induction 1 as [w0 shuffle w Hreset|w ja r w' Hreach IH Hupd].
  - by eapply reset_alive.
  - by destruct (update_alive ja w r w' IH Hupd).
Qed.

(** C5: in every world reached from a [reset] by [update] calls, whatever
    they return, [0 ≤ targets_alive ≤ nb_targets] holds (the configured
    number of targets being a number, not negative), and an [update] never
    increases [targets_alive] nor makes it negative. *)
Theorem targets_alive_bounded_and_monotone (w : World) :
  reachable w → 0 ≤ nb_targets w →
  0 ≤ targets_alive w ≤ nb_targets w
  ∧ ∀ joint_action r w',
      update joint_action w = (r, w') →
      targets_alive w' ≤ targets_alive w ∧ 0 ≤ targets_alive w'.
Proof.
  intros Hreach Hnt. pose proof (reachable_alive w Hreach) as Halive.
  pose proof Halive as (_ & Hle & Hcount). specialize (Hcount Hnt).
  split; [lia|]. intros ja r w' Hupd.
  destruct (update_alive ja w r w' Halive Hupd) as ((_ & _ & Hcount') & Hmono & _ & E).
  split; [done|]. rewrite E in Hcount'. specialize (Hcount' Hnt). lia.
Qed.

Lemma targets_alive_bounded_and_monotone_witness :
  ∃ w, reset swap12 fresh_world = (Ok tt, w)
       ∧ 0 ≤ targets_alive w ≤ nb_targets w.
Proof.
  eexists. split; [vm_compute; reflexivity|].
  apply targets_alive_bounded_and_monotone.
  - apply (reachable_reset fresh_world swap12). vm_compute. reflexivity.
  - simpl. lia.
Defined.

(** * Sample runs *)


Lemma init_lone_world : __init__ 5 1 0 42 = Ok lone_world.
Proof. reflexivity. Qed.

Lemma swap12_perm l : swap12 l ≡ₚ l.
Proof.
  destruct l as [|a [|b [|c l]]]; simpl; try done. apply perm_skip, perm_swap.
Qed.

Lemma swap02_perm l : swap02 l ≡ₚ l.
Proof.
  destruct l as [|a [|b [|c l]]]; simpl; try done.
  etrans; [apply perm_swap|]. etrans; [apply perm_skip, perm_swap|]. apply perm_swap.
Qed.

Lemma fresh_world_valid : valid_configuration fresh_world.
Proof. unfold valid_configuration. simpl. lia. Qed.

Lemma reset_places_entities_witness :
  ∃ wp w,
    reset_placement swap12 fresh_world = (Ok tt, wp)
    ∧ reset swap12 fresh_world = (Ok tt, w)
    ∧ Z.of_nat (count_elem MapElement.agent (map w)) = 2.
Proof.
  destruct (reset_places_entities swap12 fresh_world)
    as (wp & w & H1 & H2 & _ & _ & _ & _ & _ & _ & _ & _ & _ & _ & _ & _ & _ & H3 & _).
  - unfold valid_configuration. simpl. lia.
  - apply swap12_perm.
  - by exists wp, w.
Defined.

(** * The scan that follows placement *)

(** C8, as stated, fails: with agents drawn at (1,1) and (3,1) and the
    target at (2,1), the scan that [reset] runs after placement captures
    the target and [targets_alive] drops from 1 to 0. *)
Lemma reset_scan_captures_pincer :
  valid_configuration fresh_world ∧ shuffles swap12 fresh_world
  ∧ ∃ wp w,
      reset_placement swap12 fresh_world = (Ok tt, wp)
      ∧ _update_map wp = (Ok tt, w)
      ∧ reset swap12 fresh_world
        = (Ok tt, with_agent_position (position <$> agents w) w)
      ∧ nd_getitem (map wp) (2, 1) = Ok MapElement.target
      ∧ targets_alive wp = 1
      ∧ nd_getitem (map w) (2, 1) = Ok MapElement.empty
      ∧ targets_alive w = 0.
Proof.
  split; [apply fresh_world_valid|]. split; [apply swap12_perm|].
  eexists _, _. split; [vm_compute; reflexivity|].
  split; [vm_compute; reflexivity|].
  split; [vm_compute; reflexivity|]. by vm_compute.
Qed.

(** C8, as the code has it: placement draws the cells without regard to
    adjacency, and the scan that [reset] runs after it changes the world
    exactly when some placed target has two or more agents on its
    orthogonal neighbours; it then takes one off [targets_alive] for each
    such target. *)
Theorem reset_scan_noop_iff_no_pincer (shuffle : list Z → list Z) (w0 : World) :
  valid_configuration w0 → shuffles shuffle w0 →
  ∃ wp w',
    reset_placement shuffle w0 = (Ok tt, wp)
    ∧ _update_map wp = (Ok tt, w')
    ∧ reset shuffle w0 = (Ok tt, with_agent_position (position <$> agents w') w')
    ∧ (w' = wp ↔
       ∀ t, t ∈ placed_targets shuffle w0 →
            n_agent_neighbour (size w0) (map wp) t < 2)
    ∧ targets_alive w'
      = nb_targets w0
        - Z.of_nat (length (filter (λ t, 2 ≤ n_agent_neighbour (size w0) (map wp) t)
                                   (placed_targets shuffle w0))).
Proof.
  intros Hvalid Hperm.
  destruct (placed_facts shuffle w0 Hvalid Hperm) as (_ & _ & Hnd & Hint).
  apply NoDup_app in Hnd as (_ & _ & Hndt). apply Forall_app in Hint as [_ Hit].
  destruct (reset_placement_spec shuffle w0 Hvalid Hperm)
    as (a & Hplace & Hsq & Hcells & _ & _).
  set (wp := mkWorld (seed w0) (size w0) (nb_agents w0) (nb_targets w0) (nb_targets w0) a
               (placed_dict (placed_agents shuffle w0))
               (mkTarget <$> placed_targets shuffle w0) (agent_position w0)) in *.
  destruct (update_map_spec wp Hsq) as (a' & Hscan & Hsq' & Hcells' & _).
  cbn [size map targets_alive wp] in Hscan, Hcells', Hsq'.
  assert (∀ c, c ∈ placed_targets shuffle w0 ↔
               inb (size w0) c ∧ nd_getitem a c = Ok MapElement.target) as Htarget.
  { intros c. split.
    - intros Hc. pose proof (interior_inb _ _ (Forall_elem _ _ c Hit Hc)) as Hin.
      split; [done|]. rewrite (Hcells c Hin). by rewrite decide_True.
    - intros [Hin Hc]. rewrite (Hcells c Hin) in Hc.
      destruct (decide (c ∈ placed_targets shuffle w0)); [done|].
      destruct (decide (c ∈ placed_agents shuffle w0)); by vm_compute in Hc. }
  assert (filter (capturable (size w0) a) (grid_cells (size w0))
          ≡ₚ filter (λ t, 2 ≤ n_agent_neighbour (size w0) a t) (placed_targets shuffle w0))
    as Hfilter.
  { apply NoDup_Permutation.
    - apply NoDup_filter, NoDup_grid_cells.
    - by apply NoDup_filter.
    - intros c. rewrite !list_elem_of_filter, elem_of_grid_cells, Htarget.
      unfold capturable. tauto. }
  eexists wp, _. split; [exact Hplace|]. split; [exact Hscan|]. split.
  { rewrite reset_unfold, (bind_ok _ _ w0 tt wp Hplace), (bind_ok _ _ wp tt _ Hscan).
    reflexivity. }
  cbn [map targets_alive wp with_targets_alive with_map].
  split; [|by rewrite Hfilter].
  split.
  - intros E t Ht.
    apply (f_equal targets_alive) in E.
    cbn [targets_alive with_targets_alive with_map] in E.
    destruct (decide (n_agent_neighbour (size w0) a t < 2)) as [|Hge]; [done|].
    exfalso.
    assert (t ∈ filter (capturable (size w0) a) (grid_cells (size w0))) as Hin.
    { rewrite Hfilter. apply list_elem_of_filter. split; [lia|done]. }
    destruct (filter (capturable (size w0) a) (grid_cells (size w0))) as [|x l];
      [by apply elem_of_nil in Hin|].
    simpl in E. lia.
  - intros Hno.
    assert (_update_map wp = (Ok tt, wp)) as Hnoop.
    { apply update_map_noop; [done|]. cbn [size map wp].
      intros c Hc [Hc2 Hn]. assert (c ∈ placed_targets shuffle w0) as Ht by (by apply Htarget).
      specialize (Hno c Ht). lia. }
    rewrite Hscan in Hnoop. exact (f_equal snd Hnoop).
Qed.

Lemma reset_scan_noop_iff_no_pincer_witness :
  ∃ wp w',
    reset_placement swap12 fresh_world = (Ok tt, wp)
    ∧ _update_map wp = (Ok tt, w')
    ∧ targets_alive w' = 0.
Proof.
  destruct (reset_scan_noop_iff_no_pincer swap12 fresh_world)
    as (wp & w' & H1 & H2 & _ & _ & H3).
  - unfold valid_configuration. simpl. lia.
  - apply swap12_perm.
  - exists wp, w'. split; [done|]. split; [done|].
    rewrite H3. assert (wp = (reset_placement swap12 fresh_world).2) as -> by (by rewrite H1).
    by vm_compute.
Defined.

(** * Border and seed *)

(** C3 fails on the code for DOWN and RIGHT: their tests are [row + 1 < size]
    and [col + 1 < size], so an agent on row or column [size - 2] steps onto
    the outer ring, while UP and LEFT ([row - 1 > 0], [col - 1 > 0]) keep it
    off.  Here the agent of a size 5 world is drawn at (3,1): DOWN takes it
    to (4,1), three RIGHT take it to (3,4), both outside [1, 3]; and UP from
    (1,1) does not move. *)
Theorem down_and_right_enter_the_border_ring :
  ∃ w w1 w2 w3 w4,
    reset swap02 lone_world = (Ok tt, w)
    ∧ agents w !! "agent_1" = Some (mkAgent 1 (3, 1))
    ∧ update [("agent_1", Actions.DOWN)] w = (Ok tt, w1)
    ∧ agents w1 !! "agent_1" = Some (mkAgent 1 (4, 1))
    ∧ nd_getitem (map w1) (4, 1) = Ok MapElement.agent
    ∧ ¬ interior (size w) (4, 1)
    ∧ update [("agent_1", Actions.RIGHT)] w = (Ok tt, w2)
    ∧ update [("agent_1", Actions.RIGHT)] w2 = (Ok tt, w3)
    ∧ update [("agent_1", Actions.RIGHT)] w3 = (Ok tt, w4)
    ∧ agents w4 !! "agent_1" = Some (mkAgent 1 (3, 4))
    ∧ nd_getitem (map w4) (3, 4) = Ok MapElement.agent
    ∧ ¬ interior (size w) (3, 4)
    ∧ _update_action Actions.UP "agent_1" pincer_world = (Ok tt, pincer_world).
Proof.
  eexists _, _, _, _, _.
  split; [vm_compute; reflexivity|]. split; [vm_compute; reflexivity|].
  split; [vm_compute; reflexivity|]. split; [vm_compute; reflexivity|].
  split; [vm_compute; reflexivity|].
  split; [unfold interior; simpl; lia|].
  split; [vm_compute; reflexivity|]. split; [vm_compute; reflexivity|].
  split; [vm_compute; reflexivity|]. split; [vm_compute; reflexivity|].
  split; [vm_compute; reflexivity|].
  split; [unfold interior; simpl; lia|].
  vm_compute. reflexivity.
Qed.

Lemma seed_blind_ret {A} (a : A) : seed_blind (mret a).
Proof. by intros w s. Qed.

Lemma seed_blind_bind {A B} (c : M A) (f : A → M B) :
  seed_blind c → (∀ a, seed_blind (f a)) → seed_blind (c ≫= f).
Proof.
  intros Hc Hf w s. rewrite !bind_unfold, Hc.
  destruct (c w) as [[a|e] w1]; simpl; [apply Hf|done].
Qed.

Lemma seed_blind_gets {A} (f : World → A) :
  (∀ w s, f (with_seed s w) = f w) → seed_blind (gets f).
Proof. intros Hf w s. unfold gets. simpl. by rewrite Hf. Qed.

Lemma seed_blind_modify (f : World → World) :
  (∀ w s, f (with_seed s w) = with_seed s (f w)) → seed_blind (modify f).
Proof. intros Hf w s. unfold modify. simpl. by rewrite Hf. Qed.

Lemma seed_blind_lift {A} (r : Res A) : seed_blind (lift r).
Proof. by intros w s. Qed.

Lemma seed_blind_for {A} (l : list A) (body : A → M unit) :
  (∀ x, seed_blind (body x)) → seed_blind (for_ l body).
Proof.
  intros Hb. induction l as [|x l IH]; [apply seed_blind_ret|].
  cbn [for_]. apply seed_blind_bind; [apply Hb|]. by intros _.
Qed.

Ltac seed_blind_step :=
  first
    [ apply seed_blind_ret
    | apply seed_blind_lift
    | apply seed_blind_gets; by intros
    | apply seed_blind_modify; by intros
    | apply seed_blind_for; intros
    | apply seed_blind_bind; [|intros] ].

Lemma seed_blind_set_map ij v : seed_blind (set_map ij v).
Proof. unfold set_map. repeat seed_blind_step. Qed.

Lemma seed_blind_update_map : seed_blind _update_map.
Proof.
  unfold _update_map, scan_cell, get_map.
  repeat first [ seed_blind_step | apply seed_blind_set_map | case_bool_decide
               | match goal with |- seed_blind (if ?b then _ else _) => destruct b end ].
Qed.

Lemma seed_blind_reset shuffle : seed_blind (reset shuffle).
Proof.
  unfold reset. apply seed_blind_bind; [|intros _; apply seed_blind_bind;
    [apply seed_blind_update_map|intros _; unfold _update_position_state; seed_blind_step]].
  unfold reset_placement.
  repeat first [ seed_blind_step | apply seed_blind_set_map ].
Qed.

(** C7 fails on the code: [reset] never reads [self.seed] and never seeds
    the generator.  Its outcome is that of the shuffle: another seed changes
    nothing but the stored seed, and two resets of one world, with one
    seed, place the agents differently when the shuffle returns two
    different orders. *)
Theorem reset_never_reads_the_seed :
  (∀ shuffle w s,
     reset shuffle (with_seed s w)
     = ((reset shuffle w).1, with_seed s (reset shuffle w).2))
  ∧ ∃ w1 w2,
      reset (λ l, l) fresh_world = (Ok tt, w1)
      ∧ reset swap02 fresh_world = (Ok tt, w2)
      ∧ seed w1 = seed fresh_world ∧ seed w2 = seed fresh_world
      ∧ agents w1 !! "agent_1" = Some (mkAgent 1 (1, 1))
      ∧ agents w2 !! "agent_1" = Some (mkAgent 1 (3, 1))
      ∧ map w1 ≠ map w2.
Proof.
  split; [intros shuffle; apply seed_blind_reset|].
  eexists _, _.
  split; [vm_compute; reflexivity|]. split; [vm_compute; reflexivity|].
  split; [reflexivity|]. split; [reflexivity|].
  split; [vm_compute; reflexivity|]. split; [vm_compute; reflexivity|].
  by vm_compute.
Qed.

(** * What the methods leave alone *)

Lemma keeps_ret {A B} (f : World → B) (a : A) : keeps f (mret a).
Proof. by intros w. Qed.

Lemma keeps_lift {A B} (f : World → B) (r : Res A) : keeps f (lift r).
Proof. by intros w. Qed.

Lemma keeps_gets {B C} (f : World → B) (g : World → C) : keeps f (gets g).
Proof. by intros w. Qed.

Lemma keeps_modify {B} (f : World → B) (g : World → World) :
  (∀ w, f (g w) = f w) → keeps f (modify g).
Proof. intros H w. apply H. Qed.

Lemma keeps_bind {A B C} (f : World → C) (c : M A) (k : A → M B) :
  keeps f c → (∀ a, keeps f (k a)) → keeps f (c ≫= k).
Proof.
  intros Hc Hk w. rewrite bind_unfold. specialize (Hc w).
  destruct (c w) as [[a|e] w1]; simpl in *; [|done].
  by rewrite Hk.
Qed.

Lemma keeps_for {A B} (f : World → B) (l : list A) (body : A → M unit) :
  (∀ x, x ∈ l → keeps f (body x)) → keeps f (for_ l body).
Proof.
  induction l as [|x l IH]; intros Hb; [apply keeps_ret|].
  cbn [for_]. apply keeps_bind; [apply Hb; by left|].
  intros _. apply IH. intros y Hy. apply Hb. by right.
Qed.

Ltac keeps_step :=
  first
    [ apply keeps_ret
    | apply keeps_lift
    | apply keeps_gets
    | apply keeps_bind; [|intros]
    | match goal with |- keeps _ (if ?b then _ else _) => destruct b end ].

Section keeps_update.
Context {B : Type} (f : World → B) (P : string → Prop).
Hypothesis f_map : ∀ w m, f (with_map m w) = f w.
Hypothesis f_alive : ∀ w n, f (with_targets_alive n w) = f w.
Hypothesis f_projection : ∀ w p, f (with_agent_position p w) = f w.
Hypothesis f_position : ∀ w aid p,
  P aid → f (with_agents (alter (λ ag, mkAgent (id_elem ag) p) aid (agents w)) w) = f w.

Lemma keeps_set_map ij v : keeps f (set_map ij v).
Proof.
  unfold set_map. repeat keeps_step. apply keeps_modify. intros w. apply f_map.
Qed.

Lemma keeps_try_move aid guard dest : P aid → keeps f (try_move aid guard dest).
Proof.
  intros HP. unfold try_move, get_agent, get_map, set_position. cbn zeta.
  repeat first [ apply keeps_set_map | keeps_step ].
  apply keeps_modify. intros w. by apply f_position.
Qed.

Lemma keeps_update_action a aid : P aid → keeps f (_update_action a aid).
Proof.
  intros HP. unfold _update_action, get_agent.
  repeat first [ by apply keeps_try_move | keeps_step ].
Qed.

Lemma keeps_update_map : keeps f _update_map.
Proof.
  unfold _update_map, scan_cell, get_map.
  repeat first [ apply keeps_set_map | apply keeps_for; intros | keeps_step ].
  apply keeps_modify. intros w. apply f_alive.
Qed.

Lemma keeps_update ja :
  Forall (λ item : string * Z, P item.1) ja → keeps f (update ja).
Proof.
  intros Hja. unfold update, _update_position_state.
  apply keeps_bind; [|intros _; apply keeps_bind; [apply keeps_update_map|intros _]].
  - apply keeps_for. intros [aid a] Hin. apply keeps_update_action.
    by apply (Forall_elem _ _ _ Hja Hin).
  - apply keeps_modify. intros w. apply f_projection.
Qed.
End keeps_update.

Lemma keeps_reset_configuration shuffle :
  keeps (λ w, (seed w, size w, nb_agents w, nb_targets w)) (reset shuffle).
Proof.
  unfold reset, reset_placement, _update_position_state.
  repeat first
    [ apply keeps_update_map; by intros
    | apply keeps_set_map; by intros
    | apply keeps_modify; by intros
    | apply keeps_for; intros
    | keeps_step ].
Qed.

(** X1: neither [reset] nor [update] ever changes the configuration
    ([seed], [size], [nb_agents], [nb_targets]), whether they return or
    raise; and [update] never touches the list [targets], in which a
    captured target therefore stays. *)
Theorem configuration_is_never_changed :
  (∀ shuffle w,
     let w' := (reset shuffle w).2 in
     seed w' = seed w ∧ size w' = size w
     ∧ nb_agents w' = nb_agents w ∧ nb_targets w' = nb_targets w)
  ∧ (∀ joint_action w,
       let w' := (update joint_action w).2 in
       seed w' = seed w ∧ size w' = size w
       ∧ nb_agents w' = nb_agents w ∧ nb_targets w' = nb_targets w
       ∧ targets w' = targets w).
Proof.
  split.
  - intros shuffle w. pose proof (keeps_reset_configuration shuffle w) as H.
    cbn zeta. cbn beta in H. injection H as -> -> -> ->. done.
  - intros ja w.
    pose proof (keeps_update (λ w, (seed w, size w, nb_agents w, nb_targets w, targets w))
                  (λ _, True)) as H.
    specialize (H ltac:(done) ltac:(done) ltac:(done) ltac:(done) ja).
    specialize (H ltac:(by apply Forall_true) w).
    cbn zeta. cbn beta in H. injection H as -> -> -> -> ->. done.
Qed.

(** X2: [update] moves only agents named in the joint action: an agent
    whose name is not a key of it is stored after the tick exactly as
    before, whether the tick returns or raises. *)
Theorem update_leaves_unnamed_agents (joint_action : list (string * Z)) (w : World)
    (k : string) :
  k ∉ joint_action.*1 →
  agents (update joint_action w).2 !! k = agents w !! k.
Proof.
  intros Hk.
  apply (keeps_update (λ w, agents w !! k) (λ aid, aid ≠ k)); try done.
  - intros w0 aid p Hne. cbn [agents with_agents]. by rewrite lookup_alter_ne.
  - apply Forall_forall. intros [aid a] Hin. simpl. intros ->.
    apply Hk. apply list_elem_of_fmap. by exists (k, a).
Qed.

Lemma update_leaves_unnamed_agents_witness :
  agents (update [("agent_1", Actions.RIGHT)] pincer_world).2 !! "agent_2"
  = Some (mkAgent 2 (3, 1)).
Proof.
  rewrite (update_leaves_unnamed_agents [("agent_1", Actions.RIGHT)] pincer_world "agent_2").
  - reflexivity.
  - simpl. rewrite list_elem_of_singleton. done.
Defined.

(** X3: [update] never adds, removes or renumbers an agent: after a tick,
    returned or raised, every name holds an agent with the same [id] as
    before, or holds none as before; only positions change. *)
Theorem update_keeps_agent_ids (joint_action : list (string * Z)) (w : World)
    (k : string) :
  id_elem <$> agents (update joint_action w).2 !! k = id_elem <$> agents w !! k.
Proof.
  apply (keeps_update (λ w, id_elem <$> agents w !! k) (λ _, True)); try done.
  - intros w0 aid p _. cbn [agents with_agents].
    destruct (decide (aid = k)) as [->|Hne].
    + rewrite lookup_alter_eq. by destruct (agents w0 !! k).
    + by rewrite lookup_alter_ne.
  - by apply Forall_true.
Qed.

(** * The grid and the agents agree *)

Lemma destination_off_first_row_and_column a sz p :
  boundary_check a sz p = true → 1 ≤ p.1 → 1 ≤ p.2 →
  1 ≤ (destination a p).1 ∧ 1 ≤ (destination a p).2.
Proof.
  unfold boundary_check, destination. intros Hb H1 H2.
  repeat case_bool_decide; simpl; try done; lia.
Qed.

Lemma update_action_consistent w a aid r w' :
  consistent w → _update_action a aid w = (r, w') → consistent w'.
Proof.
  intros Hcons Hrun. pose proof Hcons as (Hok & Hon & Hapart & Hcells & Hca & Hct).
  pose proof Hok as [Hsq Hag].
  destruct (agents w !! aid) as [ag|] eqn:Hlook.
  2: { rewrite update_action_absent in Hrun by done. by injection Hrun as <- <-. }
  pose proof (Hag _ _ Hlook) as Hpos.
  destruct (Hon _ _ Hlook) as (Hpos1 & Hrow & Hcol).
  destruct (decide (can_move w a (position ag))) as [Hcan|Hcan].
  2: { rewrite (update_action_blocked w aid ag a Hsq Hlook Hpos Hcan) in Hrun.
       by injection Hrun as <- <-. }
  destruct (update_action_step w a aid r w' Hok Hrun) as (Hok' & _).
  destruct (update_action_done w aid ag a Hsq Hlook Hpos Hcan)
    as (Hin & Hne & a1 & a2 & Hs1 & Hs2 & Hrun').
  rewrite Hrun' in Hrun. injection Hrun as <- <-.
  destruct (nd_setitem_spec _ (map w) _ MapElement.agent Hsq Hin)
    as (a1' & Hs1' & Hsq1 & Hd1 & Ho1 & Hc1).
  rewrite Hs1 in Hs1'. injection Hs1' as <-.
  destruct (nd_setitem_spec _ a1 _ MapElement.empty Hsq1 Hpos)
    as (a2' & Hs2' & Hsq2 & Hd2 & Ho2 & Hc2).
  rewrite Hs2 in Hs2'. injection Hs2' as <-.
  destruct Hcan as [Hb Hfree].
  destruct (destination_off_first_row_and_column a (size w) (position ag) Hb Hrow Hcol)
    as [Hdrow Hdcol].
  set (dest := destination a (position ag)) in *.
  assert (∀ k' ag', k' ≠ aid → agents w !! k' = Some ag' →
            position ag' ≠ position ag ∧ position ag' ≠ dest
            ∧ nd_getitem a2 (position ag') = Ok MapElement.agent) as Hothers.
  { intros k' ag' Hk' Hlook'. destruct (Hon _ _ Hlook') as (Hp' & _ & _).
    assert (position ag' ≠ position ag) as N1.
    { intros E. apply Hk'. by apply (Hapart k' aid ag' ag). }
    assert (position ag' ≠ dest) as N2.
    { intros E. rewrite E, Hfree in Hp'. by vm_compute in Hp'. }
    splits; [done|done|].
    rewrite (Ho2 _ (Hag _ _ Hlook') N1), (Ho1 _ (Hag _ _ Hlook') N2). done. }
  assert (nd_getitem a2 dest = Ok MapElement.agent) as Hdest2 by (by rewrite (Ho2 _ Hin Hne)).
  assert (nd_getitem a1 (position ag) = Ok MapElement.agent) as Hpos_a1.
  { rewrite (Ho1 _ Hpos); [done|]. intros E. by apply Hne. }
  unfold consistent.
  cbn [size nb_agents nb_targets targets_alive map agents with_agents with_map] in *.
  split; [done|]. split; [|split; [|split; [|split]]].
  - intros k ag' Hk. destruct (decide (k = aid)) as [->|Hkne].
    + rewrite lookup_alter_eq, Hlook in Hk. simpl in Hk. injection Hk as <-. simpl.
      done.
    + rewrite lookup_alter_ne in Hk by done.
      destruct (Hothers k ag' Hkne Hk) as (_ & _ & ?).
      destruct (Hon _ _ Hk) as (_ & ? & ?). done.
  - intros k1 k2 ag1 ag2 Hk1 Hk2 E.
    destruct (decide (k1 = aid)) as [->|N1], (decide (k2 = aid)) as [->|N2]; [done|..].
    + rewrite lookup_alter_eq, Hlook in Hk1. simpl in Hk1. injection Hk1 as <-.
      rewrite lookup_alter_ne in Hk2 by done.
      destruct (Hothers k2 ag2 N2 Hk2) as (_ & Hd & _). simpl in E. by symmetry in E.
    + rewrite lookup_alter_eq, Hlook in Hk2. simpl in Hk2. injection Hk2 as <-.
      rewrite lookup_alter_ne in Hk1 by done.
      destruct (Hothers k1 ag1 N1 Hk1) as (_ & Hd & _). done.
    + rewrite lookup_alter_ne in Hk1, Hk2 by done. by eapply Hapart.
  - intros c v Hc Hv. destruct (decide (c = position ag)) as [->|Np].
    + rewrite Hd2 in Hv. injection Hv as <-. split; [by left|done].
    + rewrite (Ho2 c Hc Np) in Hv. destruct (decide (c = dest)) as [->|Nd].
      * rewrite Hd1 in Hv. injection Hv as <-. split; [right; by left|]. lia.
      * rewrite (Ho1 c Hc Nd) in Hv. by apply Hcells.
  - specialize (Hc1 MapElement.agent _ Hfree). specialize (Hc2 MapElement.agent _ Hpos_a1).
    unfold MapElement.agent, MapElement.empty in *.
    rewrite !(bool_decide_false (0 = 1)), !(bool_decide_true (1 = 1)) in * by done. lia.
  - specialize (Hc1 MapElement.target _ Hfree). specialize (Hc2 MapElement.target _ Hpos_a1).
    unfold MapElement.agent, MapElement.empty, MapElement.target in *.
    rewrite !(bool_decide_false (0 = 2)), !(bool_decide_false (1 = 2)) in * by done. lia.
Qed.

Lemma moves_consistent l : ∀ w r w',
  consistent w → moves l w = (r, w') → consistent w'.
Proof.
  induction l as [|[aid a] l IH]; intros w r w' Hcons Hrun.
  - by injection Hrun as <- <-.
  - unfold moves in Hrun. cbn [for_] in Hrun. rewrite bind_unfold in Hrun.
    cbn [fst snd] in Hrun.
    destruct (_update_action a aid w) as [r1 w1] eqn:Hstep.
    pose proof (update_action_consistent w a aid r1 w1 Hcons Hstep) as Hcons1.
    destruct r1 as [[]|e].
    + by apply (IH w1 r w').
    + by injection Hrun as <- <-.
Qed.

Lemma update_map_consistent w :
  consistent w →
  ∃ w', _update_map w = (Ok tt, w') ∧ consistent w' ∧ agents w' = agents w.
Proof.
  intros ([Hsq Hag] & Hon & Hapart & Hcells & Hca & Hct).
  destruct (update_map_spec w Hsq) as (a' & Hrun & Hsq' & Hcells' & Hcnt).
  eexists. split; [exact Hrun|]. split; [|done].
  unfold consistent.
  cbn [size nb_agents nb_targets targets_alive map agents with_targets_alive with_map].
  split; [split; done|]. split; [|split; [done|split; [|split]]].
  - intros k ag Hk. destruct (Hon _ _ Hk) as (Hp & ? & ?). split; [|done].
    rewrite (Hcells' _ (Hag _ _ Hk)). rewrite decide_False; [done|].
    intros [Ht _]. rewrite Hp in Ht. by vm_compute in Ht.
  - intros c v Hc Hv. rewrite (Hcells' c Hc) in Hv.
    destruct (decide (capturable (size w) (map w) c)).
    + injection Hv as <-. split; [by left|done].
    + by apply Hcells.
  - specialize (Hcnt MapElement.agent). unfold MapElement.agent in *.
    rewrite (bool_decide_false (1 = 2)), (bool_decide_false (1 = 0)) in Hcnt by done. lia.
  - specialize (Hcnt MapElement.target). unfold MapElement.target in *.
    rewrite (bool_decide_true (2 = 2)), (bool_decide_false (2 = 0)) in Hcnt by done. lia.
Qed.

Lemma projection_consistent w p : consistent w → consistent (with_agent_position p w).
Proof. by intros H. Qed.

Lemma update_consistent ja w r w' :
  consistent w → update ja w = (r, w') → consistent w'.
Proof.
  intros Hcons Hrun. rewrite update_unfold, bind_unfold in Hrun.
  destruct (moves ja w) as [r1 w1] eqn:Hmoves.
  pose proof (moves_consistent ja w r1 w1 Hcons Hmoves) as Hcons1.
  destruct r1 as [[]|e]; [|by injection Hrun as <- <-].
  destruct (update_map_consistent w1 Hcons1) as (w2 & Hscan & Hcons2 & _).
  rewrite (bind_ok _ _ w1 tt w2 Hscan) in Hrun.
  unfold _update_position_state, modify in Hrun. injection Hrun as <- <-.
  by apply projection_consistent.
Qed.

Lemma reset_consistent shuffle w0 w :
  valid_configuration w0 → shuffles shuffle w0 →
  reset shuffle w0 = (Ok tt, w) → consistent w.
Proof.
  intros Hvalid Hperm Hrun.
  destruct (placed_facts shuffle w0 Hvalid Hperm) as (Hla & Hlt & Hnd & Hint).
  destruct (reset_placement_spec shuffle w0 Hvalid Hperm)
    as (a & Hplace & Hsq & Hcells & Hca & Hct).
  destruct Hvalid as (Hsz & Hna & Hnt & Hfit).
  apply NoDup_app in Hnd as (Hnda & Hdisj & Hndt). apply Forall_app in Hint as [Hia Hit].
  set (wp := mkWorld (seed w0) (size w0) (nb_agents w0) (nb_targets w0) (nb_targets w0) a
               (placed_dict (placed_agents shuffle w0))
               (mkTarget <$> placed_targets shuffle w0) (agent_position w0)) in *.
  assert (consistent wp) as Hcons.
  { unfold consistent, World_ok.
    cbn [size nb_agents nb_targets targets_alive map agents wp].
    assert (∀ k ag, placed_dict (placed_agents shuffle w0) !! k = Some ag →
              position ag ∈ placed_agents shuffle w0) as Hin.
    { intros k ag Hk. apply dict_agents_values in Hk as (idx & Hp & _).
      by eapply list_elem_of_lookup_2. }
    splits.
    - done.
    - intros k ag Hk. apply interior_inb. apply (Forall_elem _ _ _ Hia). by eapply Hin.
    - intros k ag Hk. pose proof (Hin k ag Hk) as Hp.
      pose proof (Forall_elem _ _ _ Hia Hp) as [? ?]. splits; try lia.
      rewrite (Hcells _ (interior_inb _ _ (Forall_elem _ _ _ Hia Hp))).
      rewrite decide_False by (by apply Hdisj). by rewrite decide_True.
    - intros k1 k2 ag1 ag2 Hk1 Hk2 E.
      apply dict_agents_values in Hk1 as (i1 & Hp1 & -> & _).
      apply dict_agents_values in Hk2 as (i2 & Hp2 & -> & _).
      rewrite E in Hp1. by rewrite (NoDup_lookup _ _ _ _ Hnda Hp1 Hp2).
    - intros c v Hc Hv. rewrite (Hcells c Hc) in Hv.
      destruct (decide (c ∈ placed_targets shuffle w0)) as [Ht|Ht].
      + injection Hv as <-. split; [by do 2 right|].
        pose proof (Forall_elem _ _ _ Hit Ht) as [? ?]. lia.
      + destruct (decide (c ∈ placed_agents shuffle w0)) as [Ha|Ha].
        * injection Hv as <-. split; [right; by left|].
          pose proof (Forall_elem _ _ _ Hia Ha) as [? ?]. lia.
        * injection Hv as <-. split; [by left|done].
    - lia.
    - lia. }
  rewrite reset_unfold, (bind_ok _ _ w0 tt wp Hplace) in Hrun.
  destruct (update_map_consistent wp Hcons) as (w2 & Hscan & Hcons2 & _).
  rewrite (bind_ok _ _ wp tt w2 Hscan) in Hrun.
  unfold _update_position_state, modify in Hrun. injection Hrun as <-.
  by apply projection_consistent.
Qed.

Lemma played_consistent w : played w → consistent w.
Proof.
  induction 1 as [w0 shuffle w Hvalid Hperm Hreset|w ja r w' _ IH Hupd].
  - by eapply reset_consistent.
  - by eapply update_consistent.
Qed.

Lemma played_sample :
  ∃ w, reset swap12 fresh_world = (Ok tt, w) ∧ played w.
Proof.
  eexists. split; [vm_compute; reflexivity|].
  apply (played_reset fresh_world swap12).
  - unfold valid_configuration. simpl. lia.
  - apply swap12_perm.
  - vm_compute. reflexivity.
Defined.

(** X4: all through an episode every agent stands on a cell of the grid
    that is marked AGENT, and two agents of different names never stand on
    the same cell. *)
Theorem agents_stand_apart_on_agent_cells (w : World) :
  played w →
  (∀ k ag, agents w !! k = Some ag →
     inb (size w) (position ag)
     ∧ nd_getitem (map w) (position ag) = Ok MapElement.agent)
  ∧ (∀ k1 k2 ag1 ag2, agents w !! k1 = Some ag1 → agents w !! k2 = Some ag2 →
       k1 ≠ k2 → position ag1 ≠ position ag2).
Proof.
  intros Hplayed.
  destruct (played_consistent w Hplayed) as ([_ Hag] & Hon & Hapart & _).
  split.
  - intros k ag Hk. split; [by eapply Hag|]. by destruct (Hon k ag Hk).
  - intros k1 k2 ag1 ag2 Hk1 Hk2 Hne E. apply Hne. by eapply Hapart.
Qed.

Lemma agents_stand_apart_on_agent_cells_witness :
  ∃ w, reset swap12 fresh_world = (Ok tt, w)
       ∧ ∀ k ag, agents w !! k = Some ag →
           inb (size w) (position ag)
           ∧ nd_getitem (map w) (position ag) = Ok MapElement.agent.
Proof.
  destruct played_sample as (w & Hreset & Hplayed).
  exists w. split; [done|].
  by destruct (agents_stand_apart_on_agent_cells w Hplayed).
Defined.

(** X5: all through an episode the grid holds exactly [nb_agents] cells
    marked AGENT, and [nb_targets_alive] is exactly the number of cells
    marked TARGET. *)
Theorem grid_counts_match_counters (w : World) :
  played w →
  Z.of_nat (count_elem MapElement.agent (map w)) = nb_agents w
  ∧ nb_targets_alive w = Z.of_nat (count_elem MapElement.target (map w)).
Proof.
  intros Hplayed.
  destruct (played_consistent w Hplayed) as (_ & _ & _ & _ & Hca & Hct).
  split; [done|]. unfold nb_targets_alive. lia.
Qed.

Lemma grid_counts_match_counters_witness :
  ∃ w, reset swap12 fresh_world = (Ok tt, w)
       ∧ Z.of_nat (count_elem MapElement.agent (map w)) = nb_agents w
       ∧ nb_targets_alive w = Z.of_nat (count_elem MapElement.target (map w)).
Proof.
  destruct played_sample as (w & Hreset & Hplayed).
  exists w. split; [done|]. by apply grid_counts_match_counters.
Defined.

(** X6: row 0 and column 0 of the grid stay empty all through an episode,
    and no agent ever stands on them: UP and LEFT stop at row 1 and
    column 1. *)
Theorem first_row_and_column_stay_empty (w : World) :
  played w →
  (∀ c, inb (size w) c → c.1 = 0 ∨ c.2 = 0 →
     nd_getitem (map w) c = Ok MapElement.empty)
  ∧ (∀ k ag, agents w !! k = Some ag →
       1 ≤ (position ag).1 < size w ∧ 1 ≤ (position ag).2 < size w).
Proof.
  intros Hplayed.
  destruct (played_consistent w Hplayed) as ([Hsq Hag] & Hon & _ & Hcells & _).
  split.
  - intros c Hc Hedge. destruct (nd_getitem_spec _ _ c Hsq Hc) as [v Hv].
    destruct (Hcells c v Hc Hv) as [_ H0]. by rewrite Hv, (H0 Hedge).
  - intros k ag Hk. destruct (Hon k ag Hk) as (_ & ? & ?).
    destruct (Hag k ag Hk) as [? ?]. lia.
Qed.

Lemma first_row_and_column_stay_empty_witness :
  ∃ w, reset swap12 fresh_world = (Ok tt, w)
       ∧ ∀ c, inb (size w) c → c.1 = 0 ∨ c.2 = 0 →
           nd_getitem (map w) c = Ok MapElement.empty.
Proof.
  destruct played_sample as (w & Hreset & Hplayed).
  exists w. split; [done|].
  by destruct (first_row_and_column_stay_empty w Hplayed).
Defined.

(** X7: all through an episode every cell of the grid reads without error
    and holds one of the three markers: exactly one of [isEmpty],
    [isAgent], [isTarget] answers True on it. *)
Theorem cells_hold_one_marker (w : World) (c : Z * Z) :
  played w → inb (size w) c →
  ∃ v, nd_getitem (map w) c = Ok v
       ∧ (MapElement.isEmpty v, MapElement.isAgent v, MapElement.isTarget v)
         ∈ [ (true, false, false); (false, true, false); (false, false, true) ].
Proof.
  intros Hplayed Hc.
  destruct (played_consistent w Hplayed) as ([Hsq _] & _ & _ & Hcells & _).
  destruct (nd_getitem_spec _ _ c Hsq Hc) as [v Hv]. exists v. split; [done|].
  destruct (Hcells c v Hc Hv) as [Hval _].
  destruct Hval as [Hv0 | [Hv1 | Hv2]]; subst v.
  - apply list_elem_of_here.
  - apply list_elem_of_further, list_elem_of_here.
  - do 2 apply list_elem_of_further. apply list_elem_of_here.
Qed.

Lemma cells_hold_one_marker_witness :
  ∃ w, reset swap12 fresh_world = (Ok tt, w)
       ∧ ∃ v, nd_getitem (map w) (2, 2) = Ok v
              ∧ (MapElement.isEmpty v, MapElement.isAgent v, MapElement.isTarget v)
                ∈ [ (true, false, false); (false, true, false); (false, false, true) ].
Proof.
  destruct played_sample as (w & Hreset & Hplayed).
  exists w. split; [done|]. apply cells_hold_one_marker; [done|].
  assert (size w = 5) as ->.
  { assert (w = (reset swap12 fresh_world).2) as -> by (by rewrite Hreset). reflexivity. }
  unfold inb. simpl. lia.
Defined.

(** * How a tick ends *)

Lemma moves_raise l : ∀ w e w',
  World_ok w → moves l w = (Raise e, w') →
  e = KeyError ∧ ∃ item, item ∈ l ∧ agents w !! item.1 = None.
Proof.
  induction l as [|[aid a] l IH]; intros w e w' Hok Hrun; [done|].
  unfold moves in Hrun. cbn [for_] in Hrun. rewrite bind_unfold in Hrun.
  cbn [fst snd] in Hrun.
  destruct (_update_action a aid w) as [r1 w1] eqn:Hstep.
  destruct (update_action_step w a aid r1 w1 Hok Hstep)
    as (Hok1 & _ & _ & _ & _ & _ & Hdom & Hpresent & Habsent).
  destruct (agents w !! aid) as [ag|] eqn:Hlook.
  - rewrite (Hpresent ltac:(done)) in Hrun.
    destruct (IH w1 e w' Hok1 Hrun) as (-> & item & Hin & Hnone).
    split; [done|]. exists item. split; [by right|]. by apply Hdom.
  - destruct (Habsent eq_refl) as [-> ->]. injection Hrun as <- <-.
    split; [done|]. exists (aid, a). split; [by left|done].
Qed.

Lemma keeps_moves_projection l : keeps agent_position (moves l).
Proof.
  unfold moves. apply keeps_for. intros [aid a] _.
  by apply (keeps_update_action agent_position (λ _, True)).
Qed.

(** X8: on a well-formed world a tick ends in one of two ways.  Either it
    returns, and the projected [agent_position] is then the position of
    every agent after the tick; or it raises, which only happens with
    [KeyError] for a name of the joint action that is no agent, and then no
    capture scan has run ([targets_alive] is as before) and the projected
    [agent_position] is the stale one from before the tick. *)
Theorem update_returns_in_sync_or_raises_key_error (joint_action : list (string * Z))
    (w : World) (r : Res unit) (w' : World) :
  World_ok w → update joint_action w = (r, w') →
  (r = Ok tt ∧ agent_position w' = Some (position <$> agents w'))
  ∨ (r = Raise KeyError
     ∧ (∃ item, item ∈ joint_action ∧ agents w !! item.1 = None)
     ∧ targets_alive w' = targets_alive w
     ∧ agent_position w' = agent_position w).
Proof.
  intros Hok Hrun. rewrite update_unfold, bind_unfold in Hrun.
  destruct (moves joint_action w) as [r1 w1] eqn:Hmoves.
  destruct (moves_step joint_action w r1 w1 Hok Hmoves) as ([Hsq1 _] & _ & _ & _ & Hta & _).
  destruct r1 as [[]|e].
  - left. destruct (update_map_spec w1 Hsq1) as (a' & Hscan & _).
    rewrite (bind_ok _ _ w1 tt _ Hscan) in Hrun.
    unfold _update_position_state, modify in Hrun. by injection Hrun as <- <-.
  - right. injection Hrun as <- <-.
    destruct (moves_raise joint_action w e w1 Hok Hmoves) as [-> Hitem].
    splits; [done|done|done|].
    pose proof (keeps_moves_projection joint_action w) as Hkeep.
    by rewrite Hmoves in Hkeep.
Qed.

Lemma update_returns_in_sync_or_raises_key_error_witness :
  ∃ w', update [("agent_1", Actions.RIGHT); ("agent_9", Actions.NOOP)] pincer_world
        = (Raise KeyError, w')
        ∧ agent_position w' = None.
Proof.
  destruct (update [("agent_1", Actions.RIGHT); ("agent_9", Actions.NOOP)] pincer_world)
    as [r w'] eqn:Hrun.
  destruct (update_returns_in_sync_or_raises_key_error _ pincer_world r w'
              pincer_world_ok Hrun) as [[-> Hsync]|(-> & _ & _ & Hstale)].
  - exfalso. vm_compute in Hrun. discriminate.
  - exists w'. split; [done|]. by rewrite Hstale.
Defined.

(** * Capture takes two agents *)

Lemma two_cells_count sz a c1 c2 v :
  square sz a → inb sz c1 → inb sz c2 → c1 ≠ c2 →
  nd_getitem a c1 = Ok v → nd_getitem a c2 = Ok v →
  (2 ≤ count_elem v a)%nat.
Proof.
  intros Hsq H1 H2 Hne Hv1 Hv2.
  destruct (nd_setitem_spec sz a c1 (v + 1) Hsq H1) as (a1 & _ & Hsq1 & _ & Ho1 & Hc1).
  destruct (nd_setitem_spec sz a1 c2 (v + 1) Hsq1 H2) as (a2 & _ & _ & _ & _ & Hc2).
  specialize (Hc1 v v Hv1).
  assert (nd_getitem a1 c2 = Ok v) as Hv2'.
  { rewrite (Ho1 c2 H2); [done|]. intros E. by apply Hne. }
  specialize (Hc2 v v Hv2').
  rewrite !(bool_decide_true (v = v)), !(bool_decide_false (v + 1 = v)) in * by lia.
  lia.
Qed.

Lemma NoDup_neighbourhood p : NoDup (neighbourhood p).
Proof.
  unfold neighbourhood. destruct p as [r c]. simpl.
  repeat (apply NoDup_cons; split); try apply NoDup_nil_2;
    intros H; repeat (apply elem_of_cons in H as [H|H]);
    try (injection H; lia); by apply elem_of_nil in H.
Qed.

Lemma agent_pair sz a p :
  2 ≤ n_agent_neighbour sz a p →
  ∃ c1 c2, c1 ≠ c2 ∧ inb sz c1 ∧ inb sz c2
           ∧ nd_getitem a c1 = Ok MapElement.agent
           ∧ nd_getitem a c2 = Ok MapElement.agent.
Proof.
  unfold n_agent_neighbour. intros Hn.
  pose proof (NoDup_filter (λ nb, inb sz nb ∧ nd_getitem a nb = Ok MapElement.agent)
                _ (NoDup_neighbourhood p)) as Hnd.
  assert (∀ c, c ∈ filter (λ nb, inb sz nb ∧ nd_getitem a nb = Ok MapElement.agent)
                     (neighbourhood p) →
               inb sz c ∧ nd_getitem a c = Ok MapElement.agent) as Hin.
  { intros c Hc. by apply list_elem_of_filter in Hc as [? _]. }
  destruct (filter _ (neighbourhood p)) as [|c1 [|c2 l]]; simpl in Hn; try lia.
  apply NoDup_cons in Hnd as [Hc1 _].
  destruct (Hin c1) as [? ?]; [by left|].
  destruct (Hin c2) as [? ?]; [right; by left|].
  exists c1, c2. splits; try done. intros ->. apply Hc1. by left.
Qed.

Lemma scan_noop_below_two_agents (w : World) :
  square (size w) (map w) →
  (count_elem MapElement.agent (map w) < 2)%nat →
  _update_map w = (Ok tt, w).
Proof.
  intros Hsq Hfew. apply update_map_noop; [done|].
  intros c Hc [_ Hn].
  destruct (agent_pair _ _ _ Hn) as (c1 & c2 & Hne & H1 & H2 & Hv1 & Hv2).
  pose proof (two_cells_count _ _ c1 c2 _ Hsq H1 H2 Hne Hv1 Hv2). lia.
Qed.

Lemma lone_reset_keeps_all_targets shuffle w0 w :
  valid_configuration w0 → shuffles shuffle w0 → nb_agents w0 < 2 →
  reset shuffle w0 = (Ok tt, w) → targets_alive w = nb_targets w.
Proof.
  intros Hvalid Hperm Hlone Hrun.
  destruct (reset_placement_spec shuffle w0 Hvalid Hperm)
    as (a & Hplace & Hsq & _ & Hca & _).
  destruct (placed_facts shuffle w0 Hvalid Hperm) as (Hla & _).
  destruct Hvalid as (_ & Hna & _).
  rewrite reset_unfold, (bind_ok _ _ w0 tt _ Hplace) in Hrun.
  rewrite bind_unfold, scan_noop_below_two_agents in Hrun.
  - unfold _update_position_state, modify in Hrun. by injection Hrun as <-.
  - done.
  - cbn [map]. lia.
Qed.

Lemma lone_update_keeps_all_targets ja w r w' :
  consistent w → nb_agents w < 2 → update ja w = (r, w') →
  targets_alive w' = targets_alive w
  ∧ nb_targets w' = nb_targets w ∧ nb_agents w' = nb_agents w.
Proof.
  intros Hcons Hlone Hrun. pose proof Hcons as (Hok & _).
  rewrite update_unfold, bind_unfold in Hrun.
  destruct (moves ja w) as [r1 w1] eqn:Hmoves.
  destruct (moves_step ja w r1 w1 Hok Hmoves) as ([Hsq1 _] & _ & Hna & Hnt & Hta & _).
  pose proof (moves_consistent ja w r1 w1 Hcons Hmoves) as (_ & _ & _ & _ & Hca & _).
  destruct r1 as [[]|e]; [|by injection Hrun as <- <-].
  rewrite bind_unfold, scan_noop_below_two_agents in Hrun; [|done|lia].
  unfold _update_position_state, modify in Hrun. by injection Hrun as <- <-.
Qed.

Lemma lone_played_keeps_all_targets w :
  played w → nb_agents w < 2 → targets_alive w = nb_targets w.
Proof.
  induction 1 as [w0 shuffle w Hvalid Hperm Hreset|w ja r w' Hplayed IH Hupd];
    intros Hlone.
  - pose proof (keeps_reset_configuration shuffle w0) as Hcfg.
    rewrite Hreset in Hcfg. cbn [snd] in Hcfg. injection Hcfg as _ _ Hna _.
    apply (lone_reset_keeps_all_targets shuffle w0); try done. lia.
  - pose proof (keeps_update nb_agents (λ _, True)) as Hna.
    specialize (Hna ltac:(done) ltac:(done) ltac:(done) ltac:(done) ja).
    specialize (Hna ltac:(by apply Forall_true) w).
    rewrite Hupd in Hna. cbn [snd] in Hna.
    destruct (lone_update_keeps_all_targets ja w r w' (played_consistent w Hplayed))
      as (Hta & Hnt & _); [lia|done|].
    rewrite Hta, Hnt. apply IH. lia.
Qed.

(** X9: capture takes two agents.  When the grid holds fewer than two
    cells marked AGENT the capture scan returns the world untouched,
    whatever targets it holds; hence in an episode with fewer than two
    agents no target is ever captured and [targets_alive] stays
    [nb_targets]. *)
Theorem capture_takes_two_agents :
  (∀ w, square (size w) (map w) →
        (count_elem MapElement.agent (map w) < 2)%nat →
        _update_map w = (Ok tt, w))
  ∧ (∀ w, played w → nb_agents w < 2 → targets_alive w = nb_targets w).
Proof.
  split; [apply scan_noop_below_two_agents|apply lone_played_keeps_all_targets].
Qed.

Lemma capture_takes_two_agents_witness :
  ∃ w, reset swap12 solo_world = (Ok tt, w)
       ∧ _update_map w = (Ok tt, w)
       ∧ targets_alive w = 2.
Proof.
  destruct capture_takes_two_agents as [Hscan Hlone].
  eexists. split; [vm_compute; reflexivity|]. split.
  - apply Hscan.
    + split; [reflexivity|]. repeat constructor.
    + vm_compute. lia.
  - apply Hlone.
    + apply (played_reset solo_world swap12).
      * unfold valid_configuration. simpl. lia.
      * apply swap12_perm.
      * vm_compute. reflexivity.
    + simpl. lia.
Defined.

(** * A configuration that does not fit *)

Lemma getitem_cases {A} (l : list A) (i : Z) :
  getitem l i = Raise IndexError ∨ ∃ x, getitem l i = Ok x.
Proof.
  unfold getitem, norm_index. repeat case_bool_decide; cbn [mbind Res_bind];
    try (by left); destruct (l !! _); eauto.
Qed.

Lemma pick_cases random_idx positions i :
  pick random_idx positions i = Raise IndexError
  ∨ ∃ p, pick random_idx positions i = Ok p.
Proof.
  unfold pick. destruct (getitem_cases random_idx i) as [->|[k ->]]; [by left|].
  cbn [mbind Res_bind]. apply getitem_cases.
Qed.

Lemma mapM_res_cases {A B} (f : A → Res B) (e0 : exn) (l : list A) :
  (∀ x, f x = Raise e0 ∨ ∃ y, f x = Ok y) →
  mapM f l = Raise e0 ∨ ∃ ys, mapM f l = Ok ys.
Proof.
  intros Hf. induction l as [|x l IH]; [right; by eexists|].
  rewrite mapM_res_cons. destruct (Hf x) as [->|[y ->]]; [by left|].
  cbn [mbind Res_bind]. destruct IH as [->|[ys ->]]; [by left|right; by eexists].
Qed.

Lemma mapM_res_raise {A B} (f : A → Res B) (e0 : exn) (l : list A) (x0 : A) :
  (∀ x, f x = Raise e0 ∨ ∃ y, f x = Ok y) →
  x0 ∈ l → f x0 = Raise e0 → mapM f l = Raise e0.
Proof.
  intros Hf Hin Hx0. induction l as [|x l IH]; [by apply elem_of_nil in Hin|].
  rewrite mapM_res_cons. destruct (Hf x) as [->|[y Hy]]; [done|].
  rewrite Hy. cbn [mbind Res_bind].
  apply elem_of_cons in Hin as [->|Hin]; [congruence|]. by rewrite IH.
Qed.

Lemma pick_past_the_end random_idx positions N :
  0 ≤ N → length random_idx = Z.to_nat N →
  pick random_idx positions N = Raise IndexError.
Proof.
  intros HN Hlen. unfold pick, getitem, norm_index.
  rewrite !bool_decide_false by lia. done.
Qed.

(** X10: when [nb_agents + nb_targets] exceeds the [(size-2)²] cells of the
    interior, [reset] raises [IndexError] in the middle of its work: the
    grid is already wiped and [targets_alive] already set back to
    [nb_targets], while the agents, the targets and the projection are
    still those of before the call. *)
Theorem reset_overfull_raises_half_done (shuffle : list Z → list Z) (w : World) :
  0 ≤ size w → 0 ≤ nb_agents w → 0 ≤ nb_targets w →
  (size w - 2) * (size w - 2) < nb_agents w + nb_targets w →
  shuffles shuffle w →
  ∃ zeros,
    np_zeros (size w) = Ok zeros
    ∧ reset shuffle w
      = (Raise IndexError, with_map zeros (with_targets_alive (nb_targets w) w)).
Proof.
  intros Hsz Hna Hnt Hfull Hperm.
  destruct (np_zeros_spec (size w) Hsz) as (z & Hz & _).
  exists z. split; [done|].
  destruct (shuffled_facts _ _ Hperm) as (Hlen & _).
  set (N := (size w - 2) * (size w - 2)) in *.
  assert (0 ≤ N) as HN by (unfold N; apply Z.square_nonneg).
  set (ri := shuffle (range 0 N)) in *.
  pose proof (pick_past_the_end ri (all_positions (size w)) N HN Hlen) as Hfail.
  rewrite reset_unfold. apply bind_raise.
  unfold reset_placement. mred.
  cbn [size nb_agents nb_targets with_targets_alive with_map]. rewrite Hz. mred.
  cbn [size nb_agents nb_targets with_targets_alive with_map]. fold N. fold ri.
  destruct (decide (N < nb_agents w)) as [Hlt|Hge].
  - rewrite (mapM_res_raise _ IndexError _ N); [done| |by apply elem_of_range|done].
    intros i. apply pick_cases.
  - destruct (mapM_res_cases (pick ri (all_positions (size w))) IndexError
                (range 0 (nb_agents w))) as [->|[aps ->]];
      [intros i; apply pick_cases|done|].
    mred.
    rewrite (mapM_res_raise _ IndexError _ N); [done| |apply elem_of_range; lia|done].
    intros i. apply pick_cases.
Qed.

Lemma reset_overfull_raises_half_done_witness :
  ∃ zeros,
    np_zeros (size crowded_world) = Ok zeros
    ∧ reset swap12 crowded_world
      = (Raise IndexError, with_map zeros (with_targets_alive 2 crowded_world)).
Proof.
  apply (reset_overfull_raises_half_done swap12 crowded_world); simpl; try lia.
  apply swap12_perm.
Defined.

(** * A fresh start *)

Lemma reset_explicit shuffle w :
  valid_configuration w → shuffles shuffle w →
  ∃ a a',
    square (size w) a ∧ square (size w) a'
    ∧ (∀ c, inb (size w) c →
         nd_getitem a c
         = if decide (c ∈ placed_targets shuffle w) then Ok MapElement.target
           else if decide (c ∈ placed_agents shuffle w) then Ok MapElement.agent
           else Ok MapElement.empty)
    ∧ (∀ c, inb (size w) c →
         nd_getitem a' c = if decide (capturable (size w) a c) then Ok 0
                           else nd_getitem a c)
    ∧ reset shuffle w
      = (Ok tt,
         mkWorld (seed w) (size w) (nb_agents w) (nb_targets w)
           (nb_targets w
            - Z.of_nat (length (filter (capturable (size w) a) (grid_cells (size w)))))
           a' (placed_dict (placed_agents shuffle w))
           (mkTarget <$> placed_targets shuffle w)
           (Some (position <$> placed_dict (placed_agents shuffle w)))).
Proof.
  intros Hvalid Hperm.
  destruct (reset_placement_spec shuffle w Hvalid Hperm)
    as (a & Hplace & Hsq & Hcells & _ & _).
  set (wp := mkWorld (seed w) (size w) (nb_agents w) (nb_targets w) (nb_targets w) a
               (placed_dict (placed_agents shuffle w))
               (mkTarget <$> placed_targets shuffle w) (agent_position w)) in *.
  destruct (update_map_spec wp Hsq) as (a' & Hscan & Hsq' & Hcells' & _).
  exists a, a'. splits; try done.
  rewrite reset_unfold, (bind_ok _ _ w tt wp Hplace), (bind_ok _ _ wp tt _ Hscan).
  reflexivity.
Qed.

Lemma reset_same_configuration shuffle w1 w2 :
  valid_configuration w1 → shuffles shuffle w1 →
  seed w2 = seed w1 → size w2 = size w1 →
  nb_agents w2 = nb_agents w1 → nb_targets w2 = nb_targets w1 →
  reset shuffle w2 = reset shuffle w1.
Proof.
  intros Hvalid Hperm Hseed Hsize Hna Hnt.
  assert (valid_configuration w2) as Hvalid2.
  { unfold valid_configuration in *. by rewrite Hsize, Hna, Hnt. }
  assert (shuffles shuffle w2) as Hperm2.
  { unfold shuffles in *. by rewrite Hsize. }
  assert (placed_agents shuffle w2 = placed_agents shuffle w1) as Hpa.
  { unfold placed_agents. by rewrite Hsize, Hna. }
  assert (placed_targets shuffle w2 = placed_targets shuffle w1) as Hpt.
  { unfold placed_targets. by rewrite Hsize, Hna, Hnt. }
  destruct (reset_explicit shuffle w1 Hvalid Hperm)
    as (a1 & a1' & Hsq1 & Hsq1' & Hc1 & Hc1' & ->).
  destruct (reset_explicit shuffle w2 Hvalid2 Hperm2)
    as (a2 & a2' & Hsq2 & Hsq2' & Hc2 & Hc2' & ->).
  rewrite Hseed, Hsize, Hna, Hnt, Hpa, Hpt in *.
  assert (a2 = a1) as ->.
  { apply (nd_ext (size w1)); [done|done|]. intros c Hc. by rewrite Hc1, Hc2. }
  assert (a2' = a1') as ->.
  { apply (nd_ext (size w1)); [done|done|]. intros c Hc. by rewrite Hc1', Hc2'. }
  reflexivity.
Qed.

(** X11: [reset] starts afresh: for a configuration that fits, the world it
    leaves depends on the configuration and on the shuffle only, not on the
    grid, agents, targets, counter or projection of the episode before; so
    resetting twice with the same shuffle outcome leaves the same world as
    resetting once. *)
Theorem reset_forgets_the_previous_episode (shuffle : list Z → list Z) (w1 w2 : World) :
  valid_configuration w1 → shuffles shuffle w1 →
  seed w2 = seed w1 → size w2 = size w1 →
  nb_agents w2 = nb_agents w1 → nb_targets w2 = nb_targets w1 →
  reset shuffle w2 = reset shuffle w1
  ∧ reset shuffle (reset shuffle w1).2 = reset shuffle w1.
Proof.
  intros Hvalid Hperm Hseed Hsize Hna Hnt.
  split; [by apply reset_same_configuration|].
  pose proof (keeps_reset_configuration shuffle w1) as Hcfg. cbn beta in Hcfg.
  injection Hcfg as E1 E2 E3 E4.
  by apply reset_same_configuration.
Qed.

Lemma reset_forgets_the_previous_episode_witness :
  reset swap12 pincer_world = reset swap12 fresh_world.
Proof.
  apply (reset_forgets_the_previous_episode swap12 fresh_world pincer_world);
    try reflexivity.
  - unfold valid_configuration. simpl. lia.
  - apply swap12_perm.
Defined.

(** * Agents in each other's way *)

Lemma occupied_blocks w aid ag a :
  square (size w) (map w) → agents w !! aid = Some ag →
  inb (size w) (position ag) →
  nd_getitem (map w) (destination a (position ag)) = Ok MapElement.agent →
  _update_action a aid w = (Ok tt, w).
Proof.
  intros Hsq Hag Hpos Hocc. apply (update_action_blocked w aid ag a Hsq Hag Hpos).
  intros [_ Hfree]. rewrite Hocc in Hfree. by vm_compute in Hfree.
Qed.

(** X12: two agents cannot exchange their cells in one tick: when each
    aims at the cell the other stands on, the first is blocked by the
    second and the second, in its turn, by the first; the tick returns and
    no agent has moved. *)
Theorem agents_cannot_swap (w : World) (k1 k2 : string) (ag1 ag2 : Agent) (a1 a2 : Z) :
  played w →
  agents w !! k1 = Some ag1 → agents w !! k2 = Some ag2 →
  destination a1 (position ag1) = position ag2 →
  destination a2 (position ag2) = position ag1 →
  ∃ w', update [(k1, a1); (k2, a2)] w = (Ok tt, w') ∧ agents w' = agents w.
Proof.
  intros Hplayed Hk1 Hk2 Hd1 Hd2.
  pose proof (played_consistent w Hplayed) as Hcons.
  pose proof Hcons as ([Hsq Hag] & Hon & _).
  destruct (Hon _ _ Hk1) as (Hc1 & _). destruct (Hon _ _ Hk2) as (Hc2 & _).
  assert (moves [(k1, a1); (k2, a2)] w = (Ok tt, w)) as Hmoves.
  { unfold moves. cbn [for_ fst snd].
    rewrite (bind_ok _ _ w tt w); [|apply (occupied_blocks w k1 ag1); try done;
      [by eapply Hag|by rewrite Hd1]].
    rewrite (bind_ok _ _ w tt w); [done|].
    apply (occupied_blocks w k2 ag2); try done; [by eapply Hag|by rewrite Hd2]. }
  destruct (update_map_consistent w Hcons) as (w2 & Hscan & _ & Hagents).
  eexists. split.
  - rewrite update_unfold, (bind_ok _ _ w tt w Hmoves), (bind_ok _ _ w tt w2 Hscan).
    reflexivity.
  - done.
Qed.

(** * Targets stay where they are *)

Lemma update_action_no_new_target w a aid r w' :
  World_ok w → _update_action a aid w = (r, w') →
  ∀ c, inb (size w) c → nd_getitem (map w') c = Ok MapElement.target →
       nd_getitem (map w) c = Ok MapElement.target.
Proof.
  intros [Hsq Hag] Hrun.
  destruct (agents w !! aid) as [ag|] eqn:Hlook.
  2: { rewrite update_action_absent in Hrun by done. by injection Hrun as <- <-. }
  pose proof (Hag _ _ Hlook) as Hpos.
  destruct (decide (can_move w a (position ag))) as [Hcan|Hcan].
  2: { rewrite (update_action_blocked w aid ag a Hsq Hlook Hpos Hcan) in Hrun.
       by injection Hrun as <- <-. }
  destruct (update_action_done w aid ag a Hsq Hlook Hpos Hcan)
    as (Hin & Hne & a1 & a2 & Hs1 & Hs2 & Hrun').
  rewrite Hrun' in Hrun. injection Hrun as <- <-.
  destruct (nd_setitem_spec _ (map w) _ MapElement.agent Hsq Hin)
    as (a1' & Hs1' & Hsq1 & Hd1 & Ho1 & _).
  rewrite Hs1 in Hs1'. injection Hs1' as <-.
  destruct (nd_setitem_spec _ a1 _ MapElement.empty Hsq1 Hpos)
    as (a2' & Hs2' & Hsq2 & Hd2 & Ho2 & _).
  rewrite Hs2 in Hs2'. injection Hs2' as <-.
  cbn [map with_agents with_map]. intros c Hc Ht.
  destruct (decide (c = position ag)) as [->|Np].
  { rewrite Hd2 in Ht. by vm_compute in Ht. }
  rewrite (Ho2 c Hc Np) in Ht.
  destruct (decide (c = destination a (position ag))) as [->|Nd].
  { rewrite Hd1 in Ht. by vm_compute in Ht. }
  by rewrite (Ho1 c Hc Nd) in Ht.
Qed.

Lemma moves_no_new_target l : ∀ w r w',
  World_ok w → moves l w = (r, w') →
  ∀ c, inb (size w) c → nd_getitem (map w') c = Ok MapElement.target →
       nd_getitem (map w) c = Ok MapElement.target.
Proof.
  induction l as [|[aid a] l IH]; intros w r w' Hok Hrun c Hc Ht.
  - by injection Hrun as <- <-.
  - unfold moves in Hrun. cbn [for_] in Hrun. rewrite bind_unfold in Hrun.
    cbn [fst snd] in Hrun.
    destruct (_update_action a aid w) as [r1 w1] eqn:Hstep.
    destruct (update_action_step w a aid r1 w1 Hok Hstep) as (Hok1 & Hsize & _).
    apply (update_action_no_new_target w a aid r1 w1 Hok Hstep c Hc).
    destruct r1 as [[]|e].
    + apply (IH w1 r w' Hok1 Hrun); [by rewrite Hsize|done].
    + by injection Hrun as <- <-.
Qed.

(** X13: a tick never makes a target appear or move: on a well-formed
    world, a cell marked TARGET after [update], returned or raised, was
    marked TARGET before it. *)
Theorem targets_never_appear (joint_action : list (string * Z)) (w : World)
    (r : Res unit) (w' : World) (c : Z * Z) :
  World_ok w → update joint_action w = (r, w') → inb (size w) c →
  nd_getitem (map w') c = Ok MapElement.target →
  nd_getitem (map w) c = Ok MapElement.target.
Proof.
  intros Hok Hrun Hc Ht. rewrite update_unfold, bind_unfold in Hrun.
  destruct (moves joint_action w) as [r1 w1] eqn:Hmoves.
  destruct (moves_step joint_action w r1 w1 Hok Hmoves) as ([Hsq1 _] & Hsize & _).
  apply (moves_no_new_target joint_action w r1 w1 Hok Hmoves c Hc).
  destruct r1 as [[]|e]; [|by injection Hrun as <- <-].
  destruct (update_map_spec w1 Hsq1) as (a' & Hscan & _ & Hcells & _).
  rewrite (bind_ok _ _ w1 tt _ Hscan) in Hrun.
  unfold _update_position_state, modify in Hrun. injection Hrun as <- <-.
  cbn [map with_agent_position with_targets_alive with_map] in Ht.
  rewrite Hcells in Ht by (by rewrite Hsize).
  destruct (decide (capturable (size w1) (map w1) c)); [by vm_compute in Ht|done].
Qed.

Lemma agents_cannot_swap_witness :
  ∃ w w',
    reset (λ l, l) fresh_world = (Ok tt, w)
    ∧ update [("agent_1", Actions.DOWN); ("agent_2", Actions.UP)] w = (Ok tt, w')
    ∧ agents w' = agents w.
Proof.
  assert (∃ w, reset (λ l, l) fresh_world = (Ok tt, w) ∧ played w) as (w & Hreset & Hplayed).
  { eexists. split; [vm_compute; reflexivity|].
    apply (played_reset fresh_world (λ l, l)).
    - unfold valid_configuration. simpl. lia.
    - unfold shuffles. reflexivity.
    - vm_compute. reflexivity. }
  assert (w = (reset (λ l, l) fresh_world).2) as Hw by (by rewrite Hreset).
  destruct (agents_cannot_swap w "agent_1" "agent_2" (mkAgent 1 (1, 1)) (mkAgent 2 (2, 1))
              Actions.DOWN Actions.UP Hplayed) as (w' & Hupd & Hagents).
  - rewrite Hw. vm_compute. reflexivity.
  - rewrite Hw. vm_compute. reflexivity.
  - reflexivity.
  - reflexivity.
  - by exists w, w'.
Defined.

Lemma targets_never_appear_witness :
  nd_getitem (map pincer_world) (2, 1) = Ok MapElement.target.
Proof.
  destruct (update [("agent_1", Actions.RIGHT)] pincer_world) as [r w'] eqn:Hrun.
  apply (targets_never_appear [("agent_1", Actions.RIGHT)] pincer_world r w' (2, 1)
           pincer_world_ok Hrun).
  - unfold inb. simpl. lia.
  - assert (w' = (update [("agent_1", Actions.RIGHT)] pincer_world).2) as ->
      by (by rewrite Hrun).
    vm_compute. reflexivity.
Defined.

(** * The capture test off the grid *)

(** X14: on a square grid [agent_capture] never raises, whatever pixel it
    is given, on the grid, on its edge or off it: a neighbour outside
    [0, size) is skipped, not read (numpy would wrap an index of -1 to the
    last row), the answer is True exactly when two or more of the
    neighbours on the grid hold an agent, and it is False for a pixel more
    than one step off the grid. *)
Theorem agent_capture_is_bounds_safe (sz : Z) (a : ndarray) (p : Z * Z) :
  square sz a →
  ∃ b, agent_capture p sz a = Ok b
       ∧ (b = true ↔ 2 ≤ n_agent_neighbour sz a p)
       ∧ (¬ (-1 ≤ p.1 ≤ sz ∧ -1 ≤ p.2 ≤ sz) → b = false).
Proof.
  intros Hsq. eexists. split; [by apply agent_capture_spec|]. split.
  - by rewrite bool_decide_eq_true.
  - intros Hfar. apply bool_decide_eq_false. unfold n_agent_neighbour.
    assert (filter (λ nb, inb sz nb ∧ nd_getitem a nb = Ok MapElement.agent)
                   (neighbourhood p) = []) as ->; [|simpl; lia].
    apply elem_of_nil_inv. intros c Hc.
    apply list_elem_of_filter in Hc as [[[? ?] _] Hc].
    unfold neighbourhood in Hc.
    repeat (apply elem_of_cons in Hc as [->|Hc]); simpl in *; try lia.
    by apply elem_of_nil in Hc.
Qed.

Lemma agent_capture_is_bounds_safe_witness :
  ∃ b, agent_capture (0, 0) 5 (map pincer_world) = Ok b
       ∧ (b = true ↔ 2 ≤ n_agent_neighbour 5 (map pincer_world) (0, 0)).
Proof.
  destruct (agent_capture_is_bounds_safe 5 (map pincer_world) (0, 0)) as (b & H1 & H2 & _).
  - split; [reflexivity|]. repeat constructor.
  - by exists b.
Defined.

(** * An idle tick *)

Lemma idle_moves l : ∀ w,
  (∀ item, item ∈ l →
     is_Some (agents w !! item.1)
     ∧ item.2 ∉ [Actions.UP; Actions.DOWN; Actions.LEFT; Actions.RIGHT]) →
  moves l w = (Ok tt, w).
Proof.
  induction l as [|[aid a] l IH]; intros w Hidle; [done|].
  unfold moves. cbn [for_ fst snd].
  destruct (Hidle (aid, a)) as [[ag Hag] Ha]; [by left|]. simpl in *.
  rewrite (bind_ok _ _ w tt w).
  - apply IH. intros item Hitem. apply Hidle. by right.
  - apply (update_action_other w aid ag a Hag); intros ->; apply Ha;
      rewrite !elem_of_cons; tauto.
Qed.

(** X15: a tick that returned leaves a world at rest: a following tick
    whose joint action is empty, or gives existing agents only NOOP or
    codes outside 1..4, returns and changes nothing, neither the grid, nor
    the counter, nor the projection. *)
Theorem idle_tick_changes_nothing (joint_action idle : list (string * Z))
    (w w' : World) :
  World_ok w → update joint_action w = (Ok tt, w') →
  (∀ item, item ∈ idle →
     is_Some (agents w' !! item.1)
     ∧ item.2 ∉ [Actions.UP; Actions.DOWN; Actions.LEFT; Actions.RIGHT]) →
  update idle w' = (Ok tt, w').
Proof.
  intros Hok Hrun Hidle. rewrite update_unfold, bind_unfold in Hrun.
  destruct (moves joint_action w) as [r1 w1] eqn:Hmoves.
  destruct (moves_step joint_action w r1 w1 Hok Hmoves) as ([Hsq1 _] & _).
  destruct r1 as [[]|e]; [|done].
  destruct (update_map_spec w1 Hsq1) as (a' & Hscan & Hsq' & Hcells & _).
  rewrite (bind_ok _ _ w1 tt _ Hscan) in Hrun.
  unfold _update_position_state, modify in Hrun. injection Hrun as <-.
  set (w2 := with_targets_alive _ (with_map a' w1)) in *.
  assert (_update_map (with_agent_position (position <$> agents w2) w2)
          = (Ok tt, with_agent_position (position <$> agents w2) w2)) as Hnoop.
  { apply update_map_noop; cbn [size map with_agent_position with_targets_alive with_map w2];
      [done|]. by apply update_map_scanned. }
  rewrite update_unfold, (bind_ok _ _ _ tt _ (idle_moves idle _ Hidle)).
  rewrite (bind_ok _ _ _ tt _ Hnoop). reflexivity.
Qed.

Lemma idle_tick_changes_nothing_witness :
  ∃ w', update [("agent_1", Actions.RIGHT)] pincer_world = (Ok tt, w')
        ∧ update [("agent_1", Actions.NOOP); ("agent_2", 7)] w' = (Ok tt, w').
Proof.
  eexists. split; [vm_compute; reflexivity|].
  apply (idle_tick_changes_nothing [("agent_1", Actions.RIGHT)] _ pincer_world).
  - apply pincer_world_ok.
  - vm_compute. reflexivity.
  - intros item Hitem.
    apply elem_of_cons in Hitem as [->|Hitem];
      [|apply list_elem_of_singleton in Hitem as ->].
    + split; [by eexists|]. unfold Actions.UP, Actions.DOWN, Actions.LEFT, Actions.RIGHT.
      rewrite !elem_of_cons, elem_of_nil. unfold Actions.NOOP. simpl. lia.
    + split; [by eexists|]. unfold Actions.UP, Actions.DOWN, Actions.LEFT, Actions.RIGHT.
      rewrite !elem_of_cons, elem_of_nil. simpl. lia.
Defined.

(** * Before the first reset *)




(** * The names of the agents *)

Lemma placed_names shuffle w :
  valid_configuration w → shuffles shuffle w →
  (∀ i, 0 ≤ i < nb_agents w →
     id_elem <$> placed_dict (placed_agents shuffle w) !! agent_name i = Some (i + 1))
  ∧ (∀ k, is_Some (placed_dict (placed_agents shuffle w) !! k) →
       ∃ i, 0 ≤ i < nb_agents w ∧ k = agent_name i).
Proof.
  intros Hvalid Hperm.
  destruct (placed_facts shuffle w Hvalid Hperm) as (Hla & _). split.
  - intros i Hi.
    destruct (lookup_lt_is_Some_2 (placed_agents shuffle w) (Z.to_nat i)) as [p Hp]; [lia|].
    pose proof (dict_agents_lookup _ _ _ Hp) as Hd. rewrite Z2Nat.id in Hd by lia.
    unfold placed_dict. by rewrite Hd.
  - intros k [ag Hk]. apply dict_agents_values in Hk as (idx & Hp & -> & _).
    exists (Z.of_nat idx). split; [|done]. apply lookup_lt_Some in Hp. lia.
Qed.

(** X17: all through an episode the dictionary of agents holds exactly the
    names [agent_1] to [agent_n], [n] being [nb_agents], and the agent
    named [agent_i] has the id [i]. *)
Theorem agents_are_named_one_to_n (w : World) :
  played w →
  (∀ i, 0 ≤ i < nb_agents w → id_elem <$> agents w !! agent_name i = Some (i + 1))
  ∧ (∀ k, is_Some (agents w !! k) → ∃ i, 0 ≤ i < nb_agents w ∧ k = agent_name i).
Proof.
  induction 1 as [w0 shuffle w Hvalid Hperm Hreset|w ja r w' Hplayed IH Hupd].
  - destruct (reset_explicit shuffle w0 Hvalid Hperm) as (a & a' & _ & _ & _ & _ & Hrun).
    rewrite Hrun in Hreset. injection Hreset as <-. cbn [agents nb_agents].
    by apply placed_names.
  - pose proof (keeps_update nb_agents (λ _, True)) as Hna.
    specialize (Hna ltac:(done) ltac:(done) ltac:(done) ltac:(done) ja).
    specialize (Hna ltac:(by apply Forall_true) w).
    rewrite Hupd in Hna. cbn [snd] in Hna. rewrite Hna.
    assert (∀ k, id_elem <$> agents w' !! k = id_elem <$> agents w !! k) as Hids.
    { intros k.
      pose proof (keeps_update (λ w, id_elem <$> agents w !! k) (λ _, True)) as Hk.
      specialize (Hk ltac:(done) ltac:(done) ltac:(done)).
      assert (∀ (w1 : World) (aid : string) (p : Z * Z), True →
                id_elem <$> agents (with_agents
                   (alter (λ ag, mkAgent (id_elem ag) p) aid (agents w1)) w1) !! k
                = id_elem <$> agents w1 !! k) as Halter.
      { intros w1 aid p _. cbn [agents with_agents].
        destruct (decide (aid = k)) as [->|Hne].
        - rewrite lookup_alter_eq. by destruct (agents w1 !! k).
        - by rewrite lookup_alter_ne. }
      specialize (Hk Halter ja ltac:(by apply Forall_true) w).
      by rewrite Hupd in Hk. }
    destruct IH as [IH1 IH2]. split.
    + intros i Hi. rewrite Hids. by apply IH1.
    + intros k Hk. apply IH2. specialize (Hids k).
      destruct Hk as [ag Hag]. rewrite Hag in Hids.
      destruct (agents w !! k); [done|discriminate].
Qed.

Lemma agents_are_named_one_to_n_witness :
  ∃ w, reset swap12 fresh_world = (Ok tt, w)
       ∧ id_elem <$> agents w !! agent_name 1 = Some 2.
Proof.
  destruct played_sample as (w & Hreset & Hplayed).
  exists w. split; [done|].
  destruct (agents_are_named_one_to_n w Hplayed) as [Hnames _].
  apply (Hnames 1).
  assert (w = (reset swap12 fresh_world).2) as -> by (by rewrite Hreset).
  vm_compute. split; congruence.
Defined.

(** * Who moves first *)

(** X18: the order of the joint action decides a contested cell: when two
    agents aim at the same cell and the first of them can enter it, the
    first moves there and the second, finding the cell taken at its turn,
    stays where it is. *)
Theorem first_mover_takes_the_cell (w : World) (k1 k2 : string) (ag1 ag2 : Agent)
    (a1 a2 : Z) :
  played w → k1 ≠ k2 →
  agents w !! k1 = Some ag1 → agents w !! k2 = Some ag2 →
  can_move w a1 (position ag1) →
  destination a2 (position ag2) = destination a1 (position ag1) →
  ∃ w', update [(k1, a1); (k2, a2)] w = (Ok tt, w')
        ∧ position <$> agents w' !! k1 = Some (destination a1 (position ag1))
        ∧ position <$> agents w' !! k2 = Some (position ag2).
Proof.
  intros Hplayed Hne Hk1 Hk2 Hcan Hsame.
  pose proof (played_consistent w Hplayed) as Hcons.
  pose proof Hcons as ([Hsq Hag] & _).
  destruct (update_action_done w k1 ag1 a1 Hsq Hk1 (Hag _ _ Hk1) Hcan)
    as (_ & _ & m1 & m2 & _ & _ & Hstep).
  set (w1 := with_agents
               (alter (λ x, mkAgent (id_elem x) (destination a1 (position ag1))) k1
                      (agents w))
               (with_map m2 w)) in *.
  pose proof (update_action_consistent w a1 k1 (Ok tt) w1 Hcons Hstep) as Hcons1.
  pose proof Hcons1 as ([Hsq1 Hag1] & Hon1 & _).
  assert (agents w1 !! k1
          = Some (mkAgent (id_elem ag1) (destination a1 (position ag1)))) as Hk1'.
  { cbn [agents w1 with_agents]. by rewrite lookup_alter_eq, Hk1. }
  assert (agents w1 !! k2 = Some ag2) as Hk2'.
  { cbn [agents w1 with_agents]. by rewrite lookup_alter_ne. }
  destruct (Hon1 _ _ Hk1') as (Htaken & _). cbn [position] in Htaken.
  assert (_update_action a2 k2 w1 = (Ok tt, w1)) as Hblocked.
  { apply (occupied_blocks w1 k2 ag2); try done; [by eapply Hag1|by rewrite Hsame]. }
  destruct (update_map_consistent w1 Hcons1) as (w2 & Hscan & _ & Hagents).
  assert (moves [(k1, a1); (k2, a2)] w = (Ok tt, w1)) as Hmoves.
  { unfold moves. cbn [for_ fst snd].
    rewrite (bind_ok _ _ w tt w1 Hstep). by rewrite (bind_ok _ _ w1 tt w1 Hblocked). }
  eexists. split.
  - rewrite update_unfold, (bind_ok _ _ w tt w1 Hmoves), (bind_ok _ _ w1 tt w2 Hscan).
    reflexivity.
  - cbn [agents _update_position_state with_agent_position]. rewrite Hagents.
    by rewrite Hk1', Hk2'.
Qed.

Lemma first_mover_takes_the_cell_witness :
  ∃ w w',
    reset swap12 fresh_world = (Ok tt, w)
    ∧ update [("agent_1", Actions.DOWN); ("agent_2", Actions.UP)] w = (Ok tt, w')
    ∧ position <$> agents w' !! "agent_1" = Some (2, 1)
    ∧ position <$> agents w' !! "agent_2" = Some (3, 1).
Proof.
  destruct played_sample as (w & Hreset & Hplayed).
  assert (w = (reset swap12 fresh_world).2) as Hw by (by rewrite Hreset).
  destruct (first_mover_takes_the_cell w "agent_1" "agent_2"
              (mkAgent 1 (1, 1)) (mkAgent 2 (3, 1)) Actions.DOWN Actions.UP Hplayed)
    as (w' & Hupd & H1 & H2).
  - done.
  - rewrite Hw. vm_compute. reflexivity.
  - rewrite Hw. vm_compute. reflexivity.
  - rewrite Hw. split; vm_compute; reflexivity.
  - reflexivity.
  - by exists w, w'.
Defined.
